(** * Strategic scenario simulator: a shallow embedding and its properties

    The definitions below follow [strategic_scenario_simulator.py] function by
    function.  Conventions of the embedding:

    - a Python [float] is an exact rational in canonical form ([Qc]), so that
      [==] on floats is Leibniz equality; rounding is not modelled;
    - a [timedelta] is its number of microseconds, an integer without
      bounds: the [OverflowError] that [datetime] raises when a sum of
      durations leaves ±999999999 days is not modelled, so nothing below
      says that a run over arbitrary durations returns;
    - a function object stored in [Action.side_effects] is a [Callable]
      identifier (function objects compare by identity); what calling it does
      is given by an interpretation [call], fixed for a whole section; a call
      that raises is taken to raise an [Exception], which the code catches
      (a [SystemExit] or [KeyboardInterrupt], which it lets through, is not
      modelled);
    - [random.random()] reads the next element of a tape of draws, and the
      position on the tape is threaded through the code;
    - a Python list is a [list]; where two names are bound to the same list
      object the sharing is written out (see [ReadyList]). *)

From Stdlib Require Import ZArith QArith Qcanon Lia.
From stdpp Require Import base tactics decidable option list numbers strings pretty relations.

Set Default Proof Using "Type".

(** ** Numbers *)

Abbreviation float := Qc (only parsing).

(** Decimal literal [n / d] as a float. *)
Definition lit (n : Z) (d : positive) : float := Q2Qc (n # d).

Definition timedelta := Z.

(** ** Data model *)

Inductive OutcomeType := SUCCESS | PARTIAL_SUCCESS | FAILURE | CATASTROPHIC.

#[global] Instance OutcomeType_eq_dec : EqDecision OutcomeType.
Proof. solve_decision. Defined.

(** Identity of a function object kept in [side_effects]. *)
Definition Callable := nat.

Module Action.
Record t := mk {
  name : string;
  description : string;
  duration : timedelta;
  cost : float;
  success_probability : float;
  dependencies : list string;
  side_effects : list Callable
}.
End Action.
Abbreviation Action := Action.t.

(** The dataclass [__eq__]: field by field. *)
#[global] Instance Action_eq_dec : EqDecision Action.
Proof. solve_decision. Defined.

Module SecondOrderEffect.
Record t := mk {
  source_action : string;
  effect_description : string;
  probability : float;
  impact_magnitude : float;
  affected_actions : list string
}.
End SecondOrderEffect.
Abbreviation SecondOrderEffect := SecondOrderEffect.t.

#[global] Instance SecondOrderEffect_eq_dec : EqDecision SecondOrderEffect.
Proof. solve_decision. Defined.

Module SimulationPath.
Record t := mk {
  path_id : string;
  actions_taken : list Action;
  outcome_type : OutcomeType;
  total_cost : float;
  total_duration : timedelta;
  probability : float;
  second_order_effects : list SecondOrderEffect;
  risk_score : float
}.
End SimulationPath.
Abbreviation SimulationPath := SimulationPath.t.

#[global] Instance SimulationPath_eq_dec : EqDecision SimulationPath.
Proof. solve_decision. Defined.

Module ScenarioResult.
Record t := mk {
  scenario_name : string;
  paths : list SimulationPath;
  expected_value : float;
  risk_adjusted_value : float;
  success_rate : float;
  average_cost : float;
  average_duration : timedelta;
  recommended_path : option SimulationPath
}.
End ScenarioResult.
Abbreviation ScenarioResult := ScenarioResult.t.

#[global] Instance ScenarioResult_eq_dec : EqDecision ScenarioResult.
Proof. solve_decision. Defined.

(** The simulator object: [self.risk_tolerance], [self.simulation_history]. *)
Module Simulator.
Record t := mk {
  risk_tolerance : float;
  simulation_history : list ScenarioResult
}.
End Simulator.
Abbreviation Simulator := Simulator.t.

(** ** Results of fallible code

    [list.remove] raises [ValueError] when the element is absent; loops are
    run on fuel, and [OutOfFuel] is the model's own outcome for a loop that
    was given too little of it. *)

Inductive result (A : Type) : Type :=
  | Ok (a : A)
  | ValueError
  | OutOfFuel.
Arguments Ok {A} a.
Arguments ValueError {A}.
Arguments OutOfFuel {A}.

#[global] Instance result_bind : MBind result := λ A B k r,
  match r with
  | Ok a => k a
  | ValueError => ValueError
  | OutOfFuel => OutOfFuel
  end.

(** ** Python list primitives *)

(** [l.remove(x)]: delete the first element equal to [x]. *)
Fixpoint list_remove (x : Action) (l : list Action) : result (list Action) :=
  match l with
  | [] => ValueError
  | y :: l' =>
      if decide (x = y) then Ok l'
      else l'' ← list_remove x l'; Ok (y :: l'')
  end.

(** ** The action graph resolver: [_topological_sort] *)

(** [all(dep in [s.name for s in sorted_actions] for dep in a.dependencies)] *)
Definition deps_in (done : list Action) (a : Action) : Prop :=
  Forall (λ dep, dep ∈ Action.name <$> done) (Action.dependencies a).

#[global] Instance deps_in_dec done a : Decision (deps_in done a).
Proof. unfold deps_in. apply _. Defined.

(** What the name [ready] is bound to while the [for] loop runs: the fresh
    list built by the comprehension, or, after [ready = remaining], the very
    list object that the loop body mutates. *)
Inductive ReadyList :=
  | Comprehension (l : list Action)
  | SameAsRemaining.

Definition deref (ready : ReadyList) (remaining : list Action) : list Action :=
  match ready with
  | Comprehension l => l
  | SameAsRemaining => remaining
  end.

(** [for action in ready: remaining.remove(action)].  The list iterator keeps
    an index [i] into the object it iterates over and stops as soon as [i] is
    no longer a position of that object's current contents. *)
Fixpoint for_remove (fuel i : nat) (ready : ReadyList) (remaining : list Action)
  : result (list Action) :=
  match deref ready remaining !! i with
  | None => Ok remaining
  | Some action =>
      match fuel with
      | 0 => OutOfFuel
      | S fuel' =>
          remaining' ← list_remove action remaining;
          for_remove fuel' (S i) ready remaining'
      end
  end.

(** The body of [while remaining:], run at most [fuel] times. *)
Fixpoint topo_loop (fuel : nat) (sorted_actions remaining : list Action)
  : result (list Action) :=
  match remaining with
  | [] => Ok sorted_actions
  | _ :: _ =>
      match fuel with
      | 0 => OutOfFuel
      | S fuel' =>
          let comprehension := filter (deps_in sorted_actions) remaining in
          let ready :=
            match comprehension with
            | [] => SameAsRemaining
            | _ :: _ => Comprehension comprehension
            end in
          let sorted_actions' := sorted_actions ++ deref ready remaining in
          remaining' ← for_remove (length remaining) 0 ready remaining;
          topo_loop fuel' sorted_actions' remaining'
      end
  end.

Definition _topological_sort (actions : list Action) : result (list Action) :=
  topo_loop (length actions) [] actions.

(** ** The random source *)

Module Random.
Record t := mk {
  tape : nat → float;
  position : nat
}.
End Random.
Abbreviation Random := Random.t.

(** [random.random()]: the next draw, and the generator after it. *)
Definition random (g : Random) : float * Random :=
  (Random.tape g (Random.position g),
   Random.mk (Random.tape g) (S (Random.position g))).

(** ** Float helpers *)

(** [abs(x)] *)
Definition float_abs (x : float) : float :=
  if decide (x < 0)%Qc then (- x)%Qc else x.

(** [min(x, y)]: [y] only where it is strictly smaller. *)
Definition float_min (x y : float) : float :=
  if decide (y < x)%Qc then y else x.

(** [n / m] on two lengths, as a float. *)
Definition ratio (n m : nat) : float :=
  (Qc_of_Z (Z.of_nat n) / Qc_of_Z (Z.of_nat m))%Qc.

(** [timedelta(seconds=x)] keeps whole microseconds, rounding half to even;
    [q] is the number of microseconds. *)
Definition round_half_even (q : float) : Z :=
  let n := Qnum (this q) in
  let d := Z.pos (Qden (this q)) in
  let fl := (n / d)%Z in
  match (2 * (n mod d) ?= d)%Z with
  | Lt => fl
  | Gt => (fl + 1)%Z
  | Eq => if Z.even fl then fl else (fl + 1)%Z
  end.

(** ** Path sampler, effect cascader, scorer, aggregator *)

(** What calling a side-effect function does: it returns an effect, returns
    something falsy, or raises. *)
Inductive CallResult :=
  | Returns (effect : option SecondOrderEffect)
  | Raises.

(** Local variables of the sampling loop of [_run_monte_carlo_simulation]. *)
Module Loop.
Record t := mk {
  executed_actions : list Action;
  total_cost : float;
  total_duration : timedelta;
  second_order_effects : list SecondOrderEffect;
  rng : Random
}.
End Loop.

Section Simulation.

(** The behaviour of the function objects attached to actions.  They are
    taken to be pure: they neither mutate the lists they are handed nor
    draw random numbers. *)
Variable call : Callable → Action → list Action → list Action → CallResult.

(** The [for side_effect_fn in action.side_effects] loop. *)
Fixpoint custom_effects (fns : list Callable) (action : Action)
    (executed_actions all_actions : list Action) : list SecondOrderEffect :=
  match fns with
  | [] => []
  | side_effect_fn :: fns' =>
      match call side_effect_fn action executed_actions all_actions with
      | Returns (Some effect) =>
          effect :: custom_effects fns' action executed_actions all_actions
      | Returns None | Raises =>
          custom_effects fns' action executed_actions all_actions
      end
  end.

(** The effect of the high-cost rule. *)
Definition budget_effect (action : Action)
    (executed_actions all_actions : list Action) : SecondOrderEffect :=
  SecondOrderEffect.mk
    (Action.name action)
    "High cost reduces available budget"
    (lit 8 10)
    (lit (-3) 10)
    (Action.name <$> filter (λ a, a ∉ executed_actions) all_actions).

Definition _simulate_second_order_effects (action : Action)
    (executed_actions all_actions : list Action) : list SecondOrderEffect :=
  let effects :=
    custom_effects (Action.side_effects action) action executed_actions all_actions in
  if decide (lit 10000 1 < Action.cost action)%Qc
  then effects ++ [budget_effect action executed_actions all_actions]
  else effects.

Definition _determine_outcome (executed_actions all_actions : list Action)
  : OutcomeType :=
  let completion_rate :=
    ratio (length executed_actions) (Nat.max (length all_actions) 1) in
  if decide (lit 9 10 ≤ completion_rate)%Qc then SUCCESS
  else if decide (lit 6 10 ≤ completion_rate)%Qc then PARTIAL_SUCCESS
  else if decide (lit 3 10 ≤ completion_rate)%Qc then FAILURE
  else CATASTROPHIC.

Definition _calculate_path_probability (actions : list Action) : float :=
  match actions with
  | [] => lit 0 1
  | _ :: _ =>
      foldl (λ probability action,
               (probability * Action.success_probability action)%Qc)
            (lit 1 1) actions
  end.

Definition _calculate_risk_score
    (second_order_effects : list SecondOrderEffect) (total_cost : float) : float :=
  match second_order_effects with
  | [] => lit 0 1
  | _ :: _ =>
      let risk :=
        foldl (λ risk effect,
                 if decide (SecondOrderEffect.impact_magnitude effect < 0)%Qc
                 then (risk + float_abs (SecondOrderEffect.impact_magnitude effect)
                              * SecondOrderEffect.probability effect)%Qc
                 else risk)
              (lit 0 1) second_order_effects in
      let risk_score := (risk * (1 + total_cost / lit 100000 1))%Qc in
      float_min risk_score (lit 1 1)
  end.

(** One round of [for action in sorted_actions] in
    [_run_monte_carlo_simulation]. *)
Definition mc_step (sorted_actions : list Action) (st : Loop.t) (action : Action)
  : Loop.t :=
  if decide (deps_in (Loop.executed_actions st) action) then
    let '(draw, rng') := random (Loop.rng st) in
    if decide (draw < Action.success_probability action)%Qc then
      let executed_actions := Loop.executed_actions st ++ [action] in
      Loop.mk
        executed_actions
        (Loop.total_cost st + Action.cost action)%Qc
        (Loop.total_duration st + Action.duration action)%Z
        (Loop.second_order_effects st ++
           _simulate_second_order_effects action executed_actions sorted_actions)
        rng'
    else
      Loop.mk (Loop.executed_actions st) (Loop.total_cost st)
              (Loop.total_duration st) (Loop.second_order_effects st) rng'
  else st.

Definition mc_loop (sorted_actions : list Action) (rng : Random) : Loop.t :=
  foldl (mc_step sorted_actions) (Loop.mk [] (lit 0 1) 0%Z [] rng) sorted_actions.

Definition _run_monte_carlo_simulation (actions : list Action)
    (simulation_id : nat) (rng : Random) : result (SimulationPath * Random) :=
  sorted_actions ← _topological_sort actions;
  let st := mc_loop sorted_actions rng in
  let outcome_type := _determine_outcome (Loop.executed_actions st) actions in
  let probability := _calculate_path_probability (Loop.executed_actions st) in
  let risk_score :=
    _calculate_risk_score (Loop.second_order_effects st) (Loop.total_cost st) in
  Ok (SimulationPath.mk
        ("mc_" +:+ pretty simulation_id)
        (Loop.executed_actions st)
        outcome_type
        (Loop.total_cost st)
        (Loop.total_duration st)
        probability
        (Loop.second_order_effects st)
        risk_score,
      Loop.rng st).

(** One round of [for action in actions] in [_create_deterministic_path]. *)
Definition det_step (success_rate : float) (st : Loop.t) (action : Action)
  : Loop.t :=
  let '(draw, rng') := random (Loop.rng st) in
  if decide (draw < success_rate)%Qc then
    Loop.mk
      (Loop.executed_actions st ++ [action])
      (Loop.total_cost st + Action.cost action)%Qc
      (Loop.total_duration st + Action.duration action)%Z
      []
      rng'
  else
    Loop.mk (Loop.executed_actions st) (Loop.total_cost st)
            (Loop.total_duration st) [] rng'.

Definition _create_deterministic_path (path_name : string)
    (actions : list Action) (success_rate : float) (rng : Random)
  : SimulationPath * Random :=
  let st := foldl (det_step success_rate) (Loop.mk [] (lit 0 1) 0%Z [] rng) actions in
  let outcome_type := _determine_outcome (Loop.executed_actions st) actions in
  let probability := (success_rate ^ length (Loop.executed_actions st))%Qc in
  (SimulationPath.mk
     path_name
     (Loop.executed_actions st)
     outcome_type
     (Loop.total_cost st)
     (Loop.total_duration st)
     probability
     []
     (1 - success_rate)%Qc,
   Loop.rng st).

Definition _explore_all_paths (actions : list Action) (rng : Random)
  : result (list SimulationPath * Random) :=
  sorted_actions ← _topological_sort actions;
  let '(optimistic, rng) :=
    _create_deterministic_path "optimistic" sorted_actions (lit 1 1) rng in
  let '(realistic, rng) :=
    _create_deterministic_path "realistic" sorted_actions (lit 8 10) rng in
  let '(pessimistic, rng) :=
    _create_deterministic_path "pessimistic" sorted_actions (lit 5 10) rng in
  Ok ([optimistic; realistic; pessimistic], rng).

Definition _calculate_path_value (path : SimulationPath) : float :=
  let benefit :=
    match SimulationPath.outcome_type path with
    | SUCCESS => lit 100000 1
    | PARTIAL_SUCCESS => lit 50000 1
    | FAILURE => lit (-10000) 1
    | CATASTROPHIC => lit (-50000) 1
    end in
  (benefit - SimulationPath.total_cost path)%Qc.

(** The score both [_analyze_simulation_results] and
    [_select_recommended_path] compute for a path. *)
Definition score (self : Simulator) (path : SimulationPath) : float :=
  let value := _calculate_path_value path in
  let risk_adjustment :=
    (1 - SimulationPath.risk_score path * (1 - Simulator.risk_tolerance self))%Qc in
  (value * SimulationPath.probability path * risk_adjustment)%Qc.

(** [l.sort(key=lambda x: x[0], reverse=True)]: the sort is stable, also
    when reversed, so an element goes in front of the first one whose key
    is not strictly larger than its own. *)
Fixpoint insert_desc (x : float * SimulationPath) (l : list (float * SimulationPath))
  : list (float * SimulationPath) :=
  match l with
  | [] => [x]
  | y :: l' =>
      if decide (x.1 < y.1)%Qc then y :: insert_desc x l' else x :: l
  end.

Definition sort_desc (l : list (float * SimulationPath))
  : list (float * SimulationPath) :=
  foldr insert_desc [] l.

Definition _select_recommended_path (self : Simulator)
    (paths : list SimulationPath) : option SimulationPath :=
  match paths with
  | [] => None
  | _ :: _ =>
      let scored_paths := (λ path, (score self path, path)) <$> paths in
      match sort_desc scored_paths with
      | [] => None
      | best :: _ => Some best.2
      end
  end.

Definition is_success (p : SimulationPath) : Prop :=
  SimulationPath.outcome_type p = SUCCESS ∨
  SimulationPath.outcome_type p = PARTIAL_SUCCESS.

#[global] Instance is_success_dec p : Decision (is_success p).
Proof. unfold is_success. apply _. Defined.

Definition _analyze_simulation_results (self : Simulator)
    (scenario_name : string) (paths : list SimulationPath) : ScenarioResult :=
  match paths with
  | [] =>
      ScenarioResult.mk scenario_name [] (lit 0 1) (lit 0 1) (lit 0 1) (lit 0 1)
                        0%Z None
  | _ :: _ =>
      let success_paths := filter is_success paths in
      let success_rate := ratio (length success_paths) (length paths) in
      let average_cost :=
        (foldl (λ acc p, acc + SimulationPath.total_cost p) (lit 0 1) paths
         / Qc_of_Z (Z.of_nat (length paths)))%Qc in
      let average_duration :=
        round_half_even
          (Qc_of_Z (foldl (λ acc p, acc + SimulationPath.total_duration p) 0 paths)%Z
           / Qc_of_Z (Z.of_nat (length paths)))%Qc in
      let expected_value :=
        foldl (λ acc path,
                 acc + _calculate_path_value path * SimulationPath.probability path)%Qc
              (lit 0 1) paths in
      let risk_adjusted_value :=
        foldl (λ acc path, acc + score self path)%Qc (lit 0 1) paths in
      let recommended_path := _select_recommended_path self paths in
      ScenarioResult.mk scenario_name paths expected_value risk_adjusted_value
                        success_rate average_cost average_duration
                        recommended_path
  end.

(** [for i in range(num_simulations)] over the identifiers still to run. *)
Fixpoint mc_runs (actions : list Action) (ids : list nat) (rng : Random)
  : result (list SimulationPath * Random) :=
  match ids with
  | [] => Ok ([], rng)
  | i :: ids' =>
      '(path, rng') ← _run_monte_carlo_simulation actions i rng;
      '(paths, rng'') ← mc_runs actions ids' rng';
      Ok (path :: paths, rng'')
  end.

Definition simulate_scenario (self : Simulator) (scenario_name : string)
    (actions : list Action) (num_simulations : Z) (monte_carlo : bool)
    (rng : Random) : result (ScenarioResult * Simulator * Random) :=
  '(paths, rng') ←
    (if monte_carlo
     then mc_runs actions (seq 0 (Z.to_nat num_simulations)) rng
     else _explore_all_paths actions rng);
  let result := _analyze_simulation_results self scenario_name paths in
  Ok (result,
      Simulator.mk (Simulator.risk_tolerance self)
                   (Simulator.simulation_history self ++ [result]),
      rng').

End Simulation.

(** * Vocabulary of the properties *)

(** Removing, one after the other, the elements of a list [xs]. *)
Fixpoint remove_all (xs remaining : list Action) : result (list Action) :=
  match xs with
  | [] => Ok remaining
  | x :: xs' => remaining' ← list_remove x remaining; remove_all xs' remaining'
  end.

(** The dependency graph of an action set, on names: [n] lists [d]. *)
Definition depends (actions : list Action) (n d : string) : Prop :=
  ∃ a, a ∈ actions ∧ Action.name a = n ∧ d ∈ Action.dependencies a.

Definition acyclic (actions : list Action) : Prop :=
  ∀ n, ¬ tc (depends actions) n n.

Definition has_cycle (actions : list Action) : Prop :=
  ∃ n, tc (depends actions) n n.

(** Some dependency names no action of the set. *)
Definition dangling (actions : list Action) : Prop :=
  ∃ a d, a ∈ actions ∧ d ∈ Action.dependencies a ∧ d ∉ Action.name <$> actions.

Definition deps_present (actions : list Action) : Prop :=
  ∀ a d, a ∈ actions → d ∈ Action.dependencies a → d ∈ Action.name <$> actions.

Definition unique_names (actions : list Action) : Prop :=
  NoDup (Action.name <$> actions).

Definition unresolvable (actions : list Action) : Prop :=
  has_cycle actions ∨ dangling actions.

(** Every entry of [order] comes after entries bearing each of the names in
    its dependency list. *)
Definition after_dependencies (order : list Action) : Prop :=
  ∀ i a d,
    order !! i = Some a → d ∈ Action.dependencies a →
    ∃ j b, j < i ∧ order !! j = Some b ∧ Action.name b = d.

(** A set of actions none of which can become ready before another of them
    has been ordered. *)
Definition trap (actions : list Action) (T : Action → Prop) : Prop :=
  ∀ a, a ∈ actions → T a →
    ∃ d, d ∈ Action.dependencies a ∧
         ∀ b, b ∈ actions → Action.name b = d → T b.

(** ** Example plans *)

Definition days (n : Z) : timedelta := (n * 86400 * 1000000)%Z.

(** The plan of the module's own example run. *)
Definition project : list Action :=
  [ Action.mk "requirements_gathering" "Gather and document requirements"
      (days 14) (lit 10000 1) (lit 9 10) [] [];
    Action.mk "design_phase" "Create system design"
      (days 21) (lit 15000 1) (lit 85 100) ["requirements_gathering"] [];
    Action.mk "implementation" "Implement the system"
      (days 60) (lit 50000 1) (lit 75 100) ["design_phase"] [];
    Action.mk "testing" "Test the system"
      (days 21) (lit 12000 1) (lit 8 10) ["implementation"] [];
    Action.mk "deployment" "Deploy to production"
      (days 7) (lit 8000 1) (lit 85 100) ["testing"] [] ].

Definition project_rank (n : string) : nat :=
  if decide (n = "requirements_gathering") then 0
  else if decide (n = "design_phase") then 1
  else if decide (n = "implementation") then 2
  else if decide (n = "testing") then 3
  else 4.

(** Two actions that wait for each other. *)
Definition act_a : Action :=
  Action.mk "a" "first" (days 1) (lit 100 1) (lit 1 2) ["b"] [].
Definition act_b : Action :=
  Action.mk "b" "second" (days 2) (lit 200 1) (lit 1 2) ["a"] [].
Definition deadlock : list Action := [act_a; act_b].

(** The same two actions without dependencies. *)
Definition idle : list Action :=
  [ Action.mk "a" "first" (days 1) (lit 100 1) (lit 1 2) [] [];
    Action.mk "b" "second" (days 2) (lit 200 1) (lit 1 2) [] [] ].

(** The [ScenarioResult] a run returned, if it returned. *)
Definition returned (r : result (ScenarioResult * Simulator * Random))
  : option ScenarioResult :=
  match r with
  | Ok (result, _, _) => Some result
  | ValueError | OutOfFuel => None
  end.

(** The simulator of the examples: risk tolerance 0.5, empty history. *)
Definition simulator : Simulator := Simulator.mk (lit 1 2) [].

(** [x] stands at position [i] of [l], no entry of [l] has a larger value of
    [f], and every entry before position [i] has a strictly smaller one. *)
Definition first_maximum {A} (f : A → float) (l : list A) (i : nat) (x : A) : Prop :=
  l !! i = Some x ∧
  (∀ y, y ∈ l → (f y ≤ f x)%Qc) ∧
  (∀ j y, j < i → l !! j = Some y → (f y < f x)%Qc).

(** The path a Monte Carlo sample of the empty action set produces. *)
Definition empty_path (simulation_id : nat) : SimulationPath :=
  SimulationPath.mk ("mc_" +:+ pretty simulation_id) [] CATASTROPHIC
                    (lit 0 1) 0%Z (lit 0 1) [] (lit 0 1).

(** Three finished paths to choose from. *)
Definition candidates : list SimulationPath :=
  [ SimulationPath.mk "p0" [] FAILURE (lit 1000 1) 0%Z (lit 1 2) [] (lit 0 1);
    SimulationPath.mk "p1" [] SUCCESS (lit 20000 1) 0%Z (lit 1 2) [] (lit 1 2);
    SimulationPath.mk "p2" [] SUCCESS (lit 20000 1) 0%Z (lit 1 2) [] (lit 1 2) ].

(** Product and sums over a list, for stating what the loops accumulate. *)
Definition product (l : list float) : float := foldr Qcmult (lit 1 1) l.

Definition sum_cost (l : list Action) : float :=
  foldr (λ a acc, (Action.cost a + acc)%Qc) (lit 0 1) l.

Definition sum_duration (l : list Action) : timedelta :=
  foldr (λ a acc, (Action.duration a + acc)%Z) 0%Z l.

(** A tape whose draw at position [k] is [miss], every other draw is [hit]. *)
Definition tape_missing_at (k : nat) (miss hit : float) : Random :=
  Random.mk (λ n, if decide (n = k) then miss else hit) 0.

(** A task and one that depends on it. *)
Definition chain : list Action :=
  [ Action.mk "base" "groundwork" (days 3) (lit 300 1) (lit 9 10) [] [];
    Action.mk "top" "built on base" (days 4) (lit 400 1) (lit 9 10) ["base"] [] ].

(** A value in the unit interval. *)
Definition unit_interval (x : float) : Prop := (0 ≤ x)%Qc ∧ (x ≤ 1)%Qc.

#[global] Instance unit_interval_dec x : Decision (unit_interval x).
Proof. unfold unit_interval. apply _. Defined.

(** A plan with a refund booked as negative cost. *)
Definition rebate : list Action :=
  [ Action.mk "rebate" "refund received" (days 1) (lit (-500000) 1) (lit 1 1) [] [];
    Action.mk "build" "construction" (days 30) (lit 20000 1) (lit 1 1) [] [] ].

(** The outcome categories from worst to best. *)
Definition outcome_rank (outcome : OutcomeType) : nat :=
  match outcome with
  | CATASTROPHIC => 0
  | FAILURE => 1
  | PARTIAL_SUCCESS => 2
  | SUCCESS => 3
  end.

(** An effect that does no harm: its impact is not negative. *)
Definition harmless (effect : SecondOrderEffect) : Prop :=
  ¬ (SecondOrderEffect.impact_magnitude effect < 0)%Qc.

(** A simulator that is fully risk-seeking. *)
Definition risk_seeker : Simulator := Simulator.mk (lit 1 1) [].

(** An action without side-effect functions and below the high-cost
    threshold. *)
Definition plain (a : Action) : Prop :=
  Action.side_effects a = [] ∧ ¬ (lit 10000 1 < Action.cost a)%Qc.

#[global] Instance plain_dec a : Decision (plain a).
Proof. unfold plain. apply _. Defined.

(** The identifier of the Monte Carlo sample number [i]. *)
Definition mc_id (i : nat) : string := "mc_" +:+ pretty i.

(** No function object ever returns an effect. *)
Definition no_effects : Callable → Action → list Action → list Action → CallResult :=
  λ _ _ _ _, Returns None.

(** A tape that repeats one draw. *)
Definition constant_tape (draw : float) : Random := Random.mk (λ _, draw) 0.

(** * Properties *)

(** Closed decidable facts are settled by evaluation. *)
Ltac by_evaluation := apply (bool_decide_unpack _); vm_compute; exact I.

(** ** The result monad *)

Lemma bind_Ok {A B} (r : result A) (k : A → result B) (b : B) :
  r ≫= k = Ok b ↔ ∃ a, r = Ok a ∧ k a = Ok b.
Proof.
  destruct r as [a| |]; simpl; split.
  - intros Hk. by exists a.
  - by intros (a' & [= <-] & Hk).
  - intros [=].
  - by intros (? & [=] & _).
  - intros [=].
  - by intros (? & [=] & _).
Qed.

(** ** [list.remove] and the removal loop *)

Lemma list_remove_elem_of x l :
  x ∈ l →
  ∃ l', list_remove x l = Ok l' ∧ l ≡ₚ x :: l' ∧ l' `sublist_of` l.
Proof.
  induction l as [|y l IH]; intros Hx.
  - by apply elem_of_nil in Hx.
  - simpl. destruct (decide (x = y)) as [->|Hne].
    + exists l. split_and!; [done..|]. by apply sublist_cons.
    + apply elem_of_cons in Hx as [?|Hx]; [done|].
      destruct (IH Hx) as (l' & -> & Hperm & Hsub). simpl.
      exists (y :: l'). split_and!; [done| |by apply sublist_skip].
      rewrite Hperm. apply Permutation_swap.
Qed.

(** A loop over a list of its own is a plain sequence of removals. *)
Lemma for_remove_comprehension fuel i l remaining :
  length l ≤ fuel + i →
  for_remove fuel i (Comprehension l) remaining = remove_all (drop i l) remaining.
Proof.
  revert i remaining. induction fuel as [|fuel IH]; intros i remaining Hlen; simpl.
  - rewrite lookup_ge_None_2 by lia. by rewrite drop_ge by lia.
  - destruct (l !! i) as [x|] eqn:Hi.
    + rewrite (drop_S _ _ _ Hi). simpl.
      destruct (list_remove x remaining) as [r| |]; simpl; [|done..].
      apply IH. lia.
    + apply lookup_ge_None_1 in Hi. by rewrite drop_ge by lia.
Qed.

Lemma remove_all_cons_notin xs y l :
  y ∉ xs →
  remove_all xs (y :: l) = l' ← remove_all xs l; Ok (y :: l').
Proof.
  revert l. induction xs as [|x xs IH]; intros l Hy; [done|].
  apply not_elem_of_cons in Hy as [Hne Hy]. simpl.
  destruct (decide (x = y)) as [->|_]; [done|].
  destruct (list_remove x l) as [l'| |]; simpl; [|done..].
  by apply IH.
Qed.

(** Removing the elements selected by a filter leaves the others, in place. *)
Lemma remove_all_filter (P : Action → Prop) `{!∀ x, Decision (P x)} l :
  remove_all (filter P l) l = Ok (filter (λ x, ¬ P x) l).
Proof.
  induction l as [|y l IH]; [done|].
  destruct (decide (P y)) as [Hy|Hy].
  - rewrite filter_cons_True, filter_cons_False by auto. simpl.
    by rewrite decide_True.
  - rewrite filter_cons_False, filter_cons_True by auto.
    rewrite remove_all_cons_notin, IH; [done|].
    rewrite list_elem_of_filter. tauto.
Qed.

(** When [ready] is the list being emptied, the loop still ends, with a
    shorter list, but it need not empty it. *)
Lemma for_remove_alias fuel i remaining :
  length remaining ≤ fuel + i →
  ∃ remaining',
    for_remove fuel i SameAsRemaining remaining = Ok remaining' ∧
    remaining' `sublist_of` remaining ∧
    (i < length remaining → length remaining' < length remaining).
Proof.
  revert i remaining.
  induction fuel as [|fuel IH]; intros i remaining Hlen; simpl.
  - rewrite lookup_ge_None_2 by lia. exists remaining. split_and!; [done..|lia].
  - destruct (remaining !! i) as [x|] eqn:Hi.
    + destruct (list_remove_elem_of x remaining) as (r & -> & Hperm & Hsub).
      { by eapply list_elem_of_lookup_2. }
      simpl. apply Permutation_length in Hperm. simpl in Hperm.
      destruct (IH (S i) r) as (r' & -> & Hsub' & _); [lia|].
      exists r'. split_and!; [done|by etrans|].
      apply sublist_length in Hsub'. lia.
    + apply lookup_ge_None_1 in Hi.
      exists remaining. split_and!; [done..|lia].
Qed.

(** ** One round of the resolver's [while] loop *)

(** Some action is ready: the ready ones move over, the others stay. *)
Lemma topo_loop_clean fuel sorted_actions remaining :
  filter (deps_in sorted_actions) remaining ≠ [] →
  topo_loop (S fuel) sorted_actions remaining =
  topo_loop fuel
    (sorted_actions ++ filter (deps_in sorted_actions) remaining)
    (filter (λ a, ¬ deps_in sorted_actions a) remaining).
Proof.
  intros Hready. destruct remaining as [|x remaining]; [done|].
  cbn [topo_loop].
  destruct (filter (deps_in sorted_actions) (x :: remaining)) as [|y ready] eqn:Hf;
    [done|].
  cbn [deref]. rewrite for_remove_comprehension.
  - rewrite drop_0, <-Hf, remove_all_filter. done.
  - rewrite <-Hf, Nat.add_0_r. apply length_filter.
Qed.

(** No action is ready: all the remaining ones are appended as they stand. *)
Lemma topo_loop_stalled fuel sorted_actions remaining :
  remaining ≠ [] →
  filter (deps_in sorted_actions) remaining = [] →
  ∃ remaining',
    remaining' `sublist_of` remaining ∧
    length remaining' < length remaining ∧
    topo_loop (S fuel) sorted_actions remaining =
    topo_loop fuel (sorted_actions ++ remaining) remaining'.
Proof.
  intros Hne Hready. destruct remaining as [|x remaining]; [done|].
  cbn [topo_loop]. rewrite Hready. cbn [deref].
  destruct (for_remove_alias (length (x :: remaining)) 0 (x :: remaining))
    as (r' & -> & Hsub & Hlt); [lia|].
  exists r'. split_and!; [done| |done]. apply Hlt. simpl. lia.
Qed.

(** The resolver always returns: fuel equal to the number of actions is
    enough, and [remove] never raises. *)
Lemma topo_loop_Ok fuel sorted_actions remaining :
  length remaining ≤ fuel →
  ∃ extra,
    topo_loop fuel sorted_actions remaining = Ok (sorted_actions ++ extra) ∧
    extra ⊆ remaining ∧ remaining ⊆ extra.
Proof.
  revert sorted_actions remaining.
  induction fuel as [|fuel IH]; intros sorted_actions remaining Hlen.
  { destruct remaining; [|simpl in Hlen; lia].
    exists []. by rewrite app_nil_r. }
  destruct (decide (remaining = [])) as [->|Hne].
  { exists []. by rewrite app_nil_r. }
  set (P := deps_in sorted_actions).
  destruct (decide (filter P remaining = [])) as [Hstall|Hready].
  - destruct (topo_loop_stalled fuel sorted_actions remaining)
      as (r' & Hsub & Hlt & ->); [done..|].
    destruct (IH (sorted_actions ++ remaining) r') as (extra & -> & Hin & Hout);
      [lia|].
    exists (remaining ++ extra). rewrite <-(assoc_L (++)).
    split_and!; [done| |].
    + apply sublist_subseteq in Hsub.
      intros a [Ha|Ha]%elem_of_app; [done|]. by apply Hsub, Hin.
    + intros a Ha. apply elem_of_app. by left.
  - rewrite topo_loop_clean by done. fold P.
    pose proof (filter_app_complement P remaining) as Hperm.
    assert (length (filter (λ a, ¬ P a) remaining) < length remaining) as Hlt.
    { apply Permutation_length in Hperm. rewrite length_app in Hperm.
      destruct (filter P remaining); [done|]. simpl in Hperm. lia. }
    destruct (IH (sorted_actions ++ filter P remaining)
                 (filter (λ a, ¬ P a) remaining)) as (extra & -> & Hin & Hout);
      [lia|].
    exists (filter P remaining ++ extra). rewrite <-(assoc_L (++)).
    split_and!; [done| |].
    + intros a [Ha|Ha]%elem_of_app.
      * by apply list_elem_of_filter in Ha as [_ ?].
      * apply Hin in Ha. by apply list_elem_of_filter in Ha as [_ ?].
    + intros a Ha. apply elem_of_app.
      destruct (decide (P a)); [left|right; apply Hout];
        by apply list_elem_of_filter.
Qed.

Lemma _topological_sort_Ok actions :
  ∃ order,
    _topological_sort actions = Ok order ∧ order ⊆ actions ∧ actions ⊆ order.
Proof.
  destruct (topo_loop_Ok (length actions) [] actions) as (extra & H & ? & ?); [done|].
  by exists extra.
Qed.

(** ** Dependency order *)

Lemma deps_in_mono l1 l2 a : l1 ⊆ l2 → deps_in l1 a → deps_in l2 a.
Proof.
  unfold deps_in. intros Hsub Hall. eapply Forall_impl; [done|].
  intros d (b & -> & Hb)%list_elem_of_fmap.
  apply list_elem_of_fmap. exists b. split; [done|]. by apply Hsub.
Qed.

Lemma deps_in_lookup l a d :
  deps_in l a → d ∈ Action.dependencies a →
  ∃ j b, l !! j = Some b ∧ Action.name b = d.
Proof.
  unfold deps_in. rewrite Forall_forall. intros Hall Hd.
  apply Hall in Hd as (b & -> & Hb)%list_elem_of_fmap.
  apply list_elem_of_lookup_1 in Hb as [j Hj]. by exists j, b.
Qed.

Lemma after_dependencies_nil : after_dependencies [].
Proof. by intros i a d Hi. Qed.

Lemma after_dependencies_app order ready :
  after_dependencies order →
  Forall (deps_in order) ready →
  after_dependencies (order ++ ready).
Proof.
  intros Hord Hready i a d Hi Hd.
  apply lookup_app_Some in Hi as [Hi|[Hlen Hi]].
  - destruct (Hord i a d Hi Hd) as (j & b & Hlt & Hj & Hb).
    exists j, b. split_and!; [done| |done]. by apply lookup_app_l_Some.
  - rewrite Forall_forall in Hready.
    apply list_elem_of_lookup_2, Hready in Hi.
    destruct (deps_in_lookup _ _ _ Hi Hd) as (j & b & Hj & Hb).
    exists j, b. split_and!; [|by apply lookup_app_l_Some|done].
    apply lookup_lt_Some in Hj. lia.
Qed.

Lemma filter_deps_in_ready order remaining :
  Forall (deps_in order) (filter (deps_in order) remaining).
Proof. apply Forall_forall. by intros a [? _]%list_elem_of_filter. Qed.

(** In an acyclic relation no non-empty finite set is closed under "has a
    successor in the set". *)
Lemma acyclic_no_trap (R : relation string) (S : list string) :
  (∀ n, ¬ tc R n n) →
  S ≠ [] →
  (∀ n, n ∈ S → ∃ d, d ∈ S ∧ tc R n d) →
  False.
Proof.
  intros Hacyc. induction S as [|x S IH]; intros Hne Hclosed; [done|].
  destruct (decide (S = [])) as [->|HS].
  - destruct (Hclosed x) as (d & Hd & Hxd); [by left|].
    apply elem_of_cons in Hd as [->|Hd]; [|by apply elem_of_nil in Hd].
    by destruct (Hacyc x).
  - apply IH; [done|]. intros n Hn.
    destruct (Hclosed n) as (d & Hd & Hnd); [by right|].
    apply elem_of_cons in Hd as [->|Hd]; [|by eauto].
    destruct (Hclosed x) as (d' & Hd' & Hxd'); [by left|].
    apply elem_of_cons in Hd' as [->|Hd'].
    + by destruct (Hacyc x).
    + exists d'. split; [done|]. by eapply tc_trans.
Qed.

(** With an acyclic graph and no dangling name, some remaining action is
    always ready. *)
Lemma acyclic_ready actions sorted_actions remaining :
  acyclic actions → deps_present actions →
  sorted_actions ++ remaining ≡ₚ actions →
  remaining ≠ [] →
  filter (deps_in sorted_actions) remaining ≠ [].
Proof.
  intros Hacyc Hpres Hperm Hne Hstall.
  apply (acyclic_no_trap (depends actions) (Action.name <$> remaining));
    [done|by destruct remaining|].
  intros n (a & -> & Ha)%list_elem_of_fmap.
  assert (¬ deps_in sorted_actions a) as Hnot.
  { intros Hd. by eapply filter_nil_not_elem_of. }
  apply not_Forall_Exists in Hnot; [|apply _].
  apply Exists_exists in Hnot as (d & Hd & Hnin).
  assert (a ∈ actions) as Hact.
  { rewrite <-Hperm. apply elem_of_app. by right. }
  exists d. split.
  - specialize (Hpres a d Hact Hd).
    rewrite <-Hperm, fmap_app in Hpres.
    by apply elem_of_app in Hpres as [?|?].
  - apply tc_once. by exists a.
Qed.

Lemma topo_loop_acyclic actions :
  acyclic actions → deps_present actions →
  ∀ fuel sorted_actions remaining,
    length remaining ≤ fuel →
    sorted_actions ++ remaining ≡ₚ actions →
    after_dependencies sorted_actions →
    ∃ order,
      topo_loop fuel sorted_actions remaining = Ok order ∧
      order ≡ₚ actions ∧ after_dependencies order.
Proof.
  intros Hacyc Hpres.
  induction fuel as [|fuel IH]; intros sorted_actions remaining Hlen Hperm Hord.
  { destruct remaining; [|simpl in Hlen; lia].
    exists sorted_actions. by rewrite app_nil_r in Hperm. }
  destruct (decide (remaining = [])) as [->|Hne].
  { exists sorted_actions. by rewrite app_nil_r in Hperm. }
  pose proof (acyclic_ready _ _ _ Hacyc Hpres Hperm Hne) as Hready.
  rewrite topo_loop_clean by done.
  set (P := deps_in sorted_actions) in *.
  pose proof (filter_app_complement P remaining) as Hsplit.
  apply IH.
  - apply Permutation_length in Hsplit. rewrite length_app in Hsplit.
    destruct (filter P remaining); [done|]. simpl in Hsplit. lia.
  - by rewrite <-(assoc_L (++)), Hsplit.
  - apply after_dependencies_app; [done|]. apply filter_deps_in_ready.
Qed.

Lemma _topological_sort_acyclic actions :
  acyclic actions → deps_present actions →
  ∃ order,
    _topological_sort actions = Ok order ∧
    order ≡ₚ actions ∧ after_dependencies order.
Proof.
  intros Hacyc Hpres.
  by apply (topo_loop_acyclic actions Hacyc Hpres);
    [|rewrite app_nil_l|apply after_dependencies_nil].
Qed.

(** A rank that decreases along dependencies rules cycles out. *)
Lemma ranked_acyclic actions (rank : string → nat) :
  Forall (λ a, Forall (λ d, rank d < rank (Action.name a)) (Action.dependencies a))
         actions →
  acyclic actions.
Proof.
  intros Hrank.
  assert (∀ n m, tc (depends actions) n m → rank m < rank n) as Hlt.
  { assert (∀ n m, depends actions n m → rank m < rank n) as Hstep.
    { intros n m (a & Ha & <- & Hm).
      rewrite Forall_forall in Hrank. apply Hrank in Ha.
      rewrite Forall_forall in Ha. by apply Ha. }
    induction 1 as [n m H1|n m k H1 _ IH].
    - by apply Hstep.
    - apply Hstep in H1. lia. }
  intros n Hn. apply Hlt in Hn. lia.
Qed.

Lemma deps_present_Forall actions :
  Forall (λ a, Forall (λ d, d ∈ Action.name <$> actions) (Action.dependencies a))
         actions →
  deps_present actions.
Proof.
  intros Hall a d Ha Hd. rewrite Forall_forall in Hall. apply Hall in Ha.
  rewrite Forall_forall in Ha. by apply Ha.
Qed.

(** C5. For an action set with unique names whose dependency graph is
    acyclic and names only actions of the set, the resolver returns an
    ordering of the set in which every action comes after the actions named
    in its dependency list. *)
Theorem resolve_order_respects_dependencies actions :
  unique_names actions → acyclic actions → deps_present actions →
  ∃ order,
    _topological_sort actions = Ok order ∧
    order ≡ₚ actions ∧
    ∀ i a d,
      order !! i = Some a → d ∈ Action.dependencies a →
      ∃ j b, j < i ∧ order !! j = Some b ∧ Action.name b = d.
Proof.
  intros _ Hacyc Hpres.
  destruct (_topological_sort_acyclic actions Hacyc Hpres) as (order & ? & ? & ?).
  by exists order.
Qed.

Lemma resolve_order_respects_dependencies_witness :
  ∃ order,
    _topological_sort project = Ok order ∧
    order ≡ₚ project ∧
    ∀ i a d,
      order !! i = Some a → d ∈ Action.dependencies a →
      ∃ j b, j < i ∧ order !! j = Some b ∧ Action.name b = d.
Proof.
  apply (resolve_order_respects_dependencies project).
  - unfold unique_names. apply (bool_decide_unpack _). vm_compute. exact I.
  - apply (ranked_acyclic project project_rank).
    apply (bool_decide_unpack _). vm_compute. exact I.
  - apply deps_present_Forall. apply (bool_decide_unpack _). vm_compute. exact I.
Defined.

(** ** Cycles and dangling names *)

Lemma unique_names_eq actions a b :
  unique_names actions → a ∈ actions → b ∈ actions →
  Action.name a = Action.name b → a = b.
Proof.
  unfold unique_names. induction actions as [|x actions IH]; intros Hnd Ha Hb Hn.
  { by apply elem_of_nil in Ha. }
  rewrite fmap_cons in Hnd. apply NoDup_cons in Hnd as [Hx Hnd].
  apply elem_of_cons in Ha as [->|Ha]; apply elem_of_cons in Hb as [->|Hb];
    [done| | |by apply IH].
  - destruct Hx. rewrite Hn. by apply list_elem_of_fmap_2.
  - destruct Hx. rewrite <-Hn. by apply list_elem_of_fmap_2.
Qed.

(** The actions with a dangling dependency form a trap. *)
Lemma dangling_trap actions :
  trap actions (λ a, ∃ d, d ∈ Action.dependencies a ∧ d ∉ Action.name <$> actions).
Proof.
  intros a Ha (d & Hd & Hmissing). exists d. split; [done|].
  intros b Hb Hname. destruct Hmissing. rewrite <-Hname.
  by apply list_elem_of_fmap_2.
Qed.

(** So do the actions whose name lies on a cycle, when names are unique. *)
Lemma cycle_trap actions :
  unique_names actions →
  trap actions (λ a, tc (depends actions) (Action.name a) (Action.name a)).
Proof.
  intros Huniq a Ha Hcycle.
  inversion Hcycle as [n m (a' & Ha' & Hn & Hd) | n d m (a' & Ha' & Hn & Hd) Hback];
    subst.
  - assert (a' = a) as -> by by eapply unique_names_eq.
    exists (Action.name a). split; [done|]. by intros b _ ->.
  - assert (a' = a) as -> by by eapply unique_names_eq.
    exists d. split; [done|]. intros b _ ->.
    eapply tc_r; [done|]. by exists a.
Qed.

Lemma trapped_not_ready actions T sorted_actions a :
  trap actions T →
  sorted_actions ⊆ actions →
  (∀ b, b ∈ sorted_actions → ¬ T b) →
  a ∈ actions → T a →
  ¬ deps_in sorted_actions a.
Proof.
  intros Htrap Hsub Hfree Ha HT Hdeps.
  destruct (Htrap a Ha HT) as (d & Hd & Hall).
  destruct (deps_in_lookup _ _ _ Hdeps Hd) as (j & b & Hj & Hb).
  apply list_elem_of_lookup_2 in Hj. apply (Hfree b Hj). apply Hall; [|done].
  by apply Hsub.
Qed.

(** With a trapped action among the remaining ones the loop reaches a round
    in which nothing is ready; what it has ordered until then respects the
    dependencies, and all that remains is appended as it stands. *)
Lemma topo_loop_trapped actions T :
  trap actions T →
  ∀ fuel sorted_actions remaining,
    length remaining ≤ fuel →
    sorted_actions ++ remaining ≡ₚ actions →
    (∀ b, b ∈ sorted_actions → ¬ T b) →
    (∃ a, a ∈ remaining ∧ T a) →
    after_dependencies sorted_actions →
    ∃ sorted0 remaining0 extra,
      topo_loop fuel sorted_actions remaining = Ok (sorted0 ++ remaining0 ++ extra) ∧
      remaining0 ≠ [] ∧
      remaining0 `sublist_of` remaining ∧
      sorted0 ++ remaining0 ≡ₚ actions ∧
      after_dependencies sorted0 ∧
      Forall (λ a, ¬ deps_in sorted0 a) remaining0.
Proof.
  intros Htrap.
  induction fuel as [|fuel IH];
    intros sorted_actions remaining Hlen Hperm Hfree (a & Ha & HT) Hord.
  { destruct remaining; [by apply elem_of_nil in Ha|simpl in Hlen; lia]. }
  assert (remaining ≠ []) as Hne by (intros ->; by apply elem_of_nil in Ha).
  assert (sorted_actions ⊆ actions) as Hsub.
  { intros b Hb. rewrite <-Hperm. apply elem_of_app. by left. }
  assert (∀ b, b ∈ remaining → T b → ¬ deps_in sorted_actions b) as Hblocked.
  { intros b Hb HTb. eapply trapped_not_ready; [done..| |done].
    rewrite <-Hperm. apply elem_of_app. by right. }
  set (P := deps_in sorted_actions) in *.
  destruct (decide (filter P remaining = [])) as [Hstall|Hready].
  - destruct (topo_loop_stalled fuel sorted_actions remaining)
      as (r' & Hsub' & Hlt & ->); [done..|].
    destruct (topo_loop_Ok fuel (sorted_actions ++ remaining) r')
      as (extra & -> & _); [lia|].
    exists sorted_actions, remaining, extra. rewrite <-(assoc_L (++)).
    split_and!; [done..|].
    apply Forall_forall. intros b Hb HP. by eapply filter_nil_not_elem_of.
  - rewrite topo_loop_clean by done. fold P.
    pose proof (filter_app_complement P remaining) as Hsplit.
    destruct (IH (sorted_actions ++ filter P remaining)
                 (filter (λ a, ¬ P a) remaining))
      as (sorted0 & remaining0 & extra & -> & ? & Hsub0 & ? & ? & ?).
    + apply Permutation_length in Hsplit. rewrite length_app in Hsplit.
      destruct (filter P remaining); [done|]. simpl in Hsplit. lia.
    + by rewrite <-(assoc_L (++)), Hsplit.
    + intros b [Hb|Hb]%elem_of_app; [by apply Hfree|].
      apply list_elem_of_filter in Hb as [HP Hb]. intros HTb.
      by apply (Hblocked b).
    + exists a. split; [|done]. apply list_elem_of_filter. split; [|done].
      by apply Hblocked.
    + apply after_dependencies_app; [done|]. apply filter_deps_in_ready.
    + exists sorted0, remaining0, extra. split_and!; [done..| |done|done|done].
      etrans; [done|]. apply sublist_filter.
Qed.

Lemma unresolvable_trap actions :
  unique_names actions → unresolvable actions →
  ∃ T, trap actions T ∧ ∃ a, a ∈ actions ∧ T a.
Proof.
  intros Huniq [[n Hcycle]|(a & d & Ha & Hd & Hmissing)].
  - eexists. split; [by apply cycle_trap|].
    assert (∃ m, depends actions n m) as (m & a & Ha & <- & _).
    { inversion Hcycle; subst; eauto. }
    by exists a.
  - eexists. split; [apply dangling_trap|]. exists a. eauto.
Qed.

(** ** What a run returns *)

Lemma mc_runs_length call actions ids rng paths rng' :
  mc_runs call actions ids rng = Ok (paths, rng') →
  length paths = length ids.
Proof.
  revert rng paths. induction ids as [|i ids IH]; intros rng paths; simpl.
  - by intros [= <- <-].
  - intros Hrun. apply bind_Ok in Hrun as ([p1 g1] & Hp1 & Hrest).
    apply bind_Ok in Hrest as ([ps g2] & Hps & [= <- <-]).
    simpl. f_equal. by eapply IH.
Qed.

Lemma _analyze_simulation_results_paths self scenario_name paths :
  ScenarioResult.paths (_analyze_simulation_results self scenario_name paths)
  = paths.
Proof. by destruct paths. Qed.

Lemma returned_Some r result :
  returned r = Some result → ∃ self' rng', r = Ok (result, self', rng').
Proof. destruct r as [[[? s] g]| |]; [|done..]. intros [= ->]. by exists s, g. Qed.

(** ** Unresolvable dependency graphs *)

Lemma deadlock_unresolvable : unresolvable deadlock.
Proof.
  left. exists "a". eapply tc_l; [|apply tc_once].
  - exists act_a. split_and!; [by left|done|by left].
  - exists act_b. split_and!; [by right; left|done|by left].
Qed.

Lemma idle_resolvable : ¬ unresolvable idle.
Proof.
  assert (∀ n d, ¬ depends idle n d) as Hnone.
  { intros n d (a & Ha & _ & Hd).
    repeat (apply elem_of_cons in Ha as [->|Ha]; [by apply elem_of_nil in Hd|]).
    by apply elem_of_nil in Ha. }
  intros [[n Hcycle]|(a & d & Ha & Hd & _)].
  - inversion Hcycle; subst; by eapply Hnone.
  - eapply Hnone. by exists a.
Qed.

(** C1 (as stated, refuted).  A run on a plan whose two actions wait for each
    other and a run on a plan without dependencies return the very same
    [ScenarioResult]: nothing in the result tells the degraded ordering from
    the clean one. *)
Lemma unresolved_dependency_unreported :
  unique_names deadlock ∧ unresolvable deadlock ∧
  unique_names idle ∧ ¬ unresolvable idle ∧
  ∃ result,
    returned (simulate_scenario no_effects simulator "plan" deadlock 1 true
                (constant_tape (lit 9 10))) = Some result ∧
    returned (simulate_scenario no_effects simulator "plan" idle 1 true
                (constant_tape (lit 9 10))) = Some result.
Proof.
  split_and!.
  - apply (bool_decide_unpack _). vm_compute. exact I.
  - apply deadlock_unresolvable.
  - apply (bool_decide_unpack _). vm_compute. exact I.
  - apply idle_resolvable.
  - eexists. split; [vm_compute; reflexivity|].
    apply (bool_decide_unpack _). vm_compute. exact I.
Qed.

(** The two runs behind the refutation, for use below. *)
Lemma deadlock_idle_same_result :
  ∃ result,
    returned (simulate_scenario no_effects simulator "plan" deadlock 1 true
                (constant_tape (lit 9 10))) = Some result ∧
    returned (simulate_scenario no_effects simulator "plan" idle 1 true
                (constant_tape (lit 9 10))) = Some result.
Proof. eexists. split; [vm_compute; reflexivity|]. by_evaluation. Qed.

(** C1 (amended).  For an action set with unique names whose dependency graph
    has a cycle or a dangling name, the resolver raises nothing and returns
    an ordering that begins with the actions it could order, each after its
    dependencies, followed by all remaining actions, none of them ready, in
    their input order.  The run reports no condition for it: no function of
    the returned [ScenarioResult] tells, for every run, whether the plan was
    unresolvable. *)
Theorem unresolved_dependencies_best_effort actions :
  unique_names actions → unresolvable actions →
  (∃ sorted0 remaining0 extra,
     _topological_sort actions = Ok (sorted0 ++ remaining0 ++ extra) ∧
     remaining0 ≠ [] ∧
     remaining0 `sublist_of` actions ∧
     sorted0 ++ remaining0 ≡ₚ actions ∧
     after_dependencies sorted0 ∧
     Forall (λ a, ¬ deps_in sorted0 a) remaining0) ∧
  ¬ ∃ condition : ScenarioResult → bool,
      ∀ call self scenario_name plan num_simulations monte_carlo rng
        result self' rng',
        unique_names plan →
        simulate_scenario call self scenario_name plan num_simulations
                          monte_carlo rng = Ok (result, self', rng') →
        (condition result = true ↔ unresolvable plan).
Proof.
  intros Huniq Hbad. split.
  - destruct (unresolvable_trap actions Huniq Hbad) as (T & Htrap & Hin).
    apply (topo_loop_trapped actions T Htrap); [done|done| |done|].
    + intros b Hb. by apply elem_of_nil in Hb.
    + apply after_dependencies_nil.
  - intros (condition & Hcondition).
    destruct deadlock_idle_same_result as (result & Hdeadlock & Hidle).
    apply returned_Some in Hdeadlock as (s1 & g1 & Hdeadlock).
    apply returned_Some in Hidle as (s2 & g2 & Hidle).
    assert (unique_names deadlock) as Hud by by_evaluation.
    assert (unique_names idle) as Hui by by_evaluation.
    apply idle_resolvable.
    apply (Hcondition _ _ _ _ _ _ _ _ _ _ Hui Hidle).
    apply (Hcondition _ _ _ _ _ _ _ _ _ _ Hud Hdeadlock).
    apply deadlock_unresolvable.
Qed.

Lemma unresolved_dependencies_best_effort_witness :
  (∃ sorted0 remaining0 extra,
     _topological_sort deadlock = Ok (sorted0 ++ remaining0 ++ extra) ∧
     remaining0 ≠ [] ∧
     remaining0 `sublist_of` deadlock ∧
     sorted0 ++ remaining0 ≡ₚ deadlock ∧
     after_dependencies sorted0 ∧
     Forall (λ a, ¬ deps_in sorted0 a) remaining0) ∧
  ¬ ∃ condition : ScenarioResult → bool,
      ∀ call self scenario_name plan num_simulations monte_carlo rng
        result self' rng',
        unique_names plan →
        simulate_scenario call self scenario_name plan num_simulations
                          monte_carlo rng = Ok (result, self', rng') →
        (condition result = true ↔ unresolvable plan).
Proof.
  apply (unresolved_dependencies_best_effort deadlock).
  - apply (bool_decide_unpack _). vm_compute. exact I.
  - apply deadlock_unresolvable.
Defined.

(** C6 (the code departs from it).  On two actions that wait for each other
    the resolver returns three entries: the loop that empties [remaining]
    iterates over [remaining] itself, skips the second action, and the next
    round appends that action once more. *)
Theorem resolve_order_repeats_action :
  _topological_sort deadlock = Ok [act_a; act_b; act_b] ∧
  ¬ [act_a; act_b; act_b] ≡ₚ deadlock ∧
  ¬ NoDup [act_a; act_b; act_b].
Proof.
  split_and!.
  - vm_compute. reflexivity.
  - intros Hperm. by apply Permutation_length in Hperm.
  - intros Hnd. apply NoDup_cons in Hnd as [_ Hnd].
    apply NoDup_cons in Hnd as [Hb _]. apply Hb. by left.
Qed.

(** What does hold on every input: the resolver returns, and its ordering
    holds the input actions and nothing else. *)
Lemma resolve_order_total actions :
  ∃ order,
    _topological_sort actions = Ok order ∧
    ∀ a, a ∈ order ↔ a ∈ actions.
Proof.
  destruct (_topological_sort_Ok actions) as (order & ? & Hin & Hout).
  exists order. split; [done|]. intros a. split; [apply Hin|apply Hout].
Qed.

(** ** The recommended path *)

Lemma head_insert_desc x l :
  head (insert_desc x l) =
  match head l with
  | Some y => if decide (x.1 < y.1)%Qc then Some y else Some x
  | None => Some x
  end.
Proof. destruct l as [|y l]; simpl; [done|]. by destruct (decide _). Qed.

(** The head of the sorted list is the first entry of the input with the
    largest key. *)
Lemma sort_desc_head (l : list (float * SimulationPath)) :
  l ≠ [] →
  ∃ i x, head (sort_desc l) = Some x ∧ first_maximum fst l i x.
Proof.
  induction l as [|x l IH]; intros Hne; [done|].
  unfold sort_desc. cbn [foldr]. fold (sort_desc l). rewrite head_insert_desc.
  destruct (decide (l = [])) as [->|Hl].
  { exists 0, x. simpl. split; [done|]. split_and!; [done| |intros; lia].
    intros y ->%list_elem_of_singleton. apply Qcle_refl. }
  destruct (IH Hl) as (i & y & -> & Hi & Hmax & Hfirst).
  destruct (decide (x.1 < y.1)%Qc) as [Hlt|Hge].
  - exists (S i), y. split; [done|]. split_and!; [done| |].
    + intros z [->|Hz]%elem_of_cons; [by apply Qclt_le_weak|by apply Hmax].
    + intros [|j] z Hj Hz; simplify_eq/=; [done|]. apply (Hfirst j); [lia|done].
  - apply Qcnot_lt_le in Hge.
    exists 0, x. split; [done|]. split_and!; [done| |intros; lia].
    intros z [->|Hz]%elem_of_cons; [apply Qcle_refl|].
    eapply Qcle_trans; [by apply Hmax|done].
Qed.

Lemma _select_recommended_path_first_maximum self paths :
  paths ≠ [] →
  ∃ i best,
    _select_recommended_path self paths = Some best ∧
    first_maximum (score self) paths i best.
Proof.
  intros Hne.
  destruct (sort_desc_head ((λ path, (score self path, path)) <$> paths))
    as (i & x & Hhead & Hi & Hmax & Hfirst).
  { by destruct paths. }
  apply list_lookup_fmap_Some in Hi as (best & -> & Hi).
  exists i, best. split.
  - unfold _select_recommended_path. destruct paths as [|p paths]; [done|].
    destruct (sort_desc _) as [|b ?]; simplify_eq/=. done.
  - split_and!; [done| |].
    + intros p Hp. apply (Hmax (score self p, p)).
      apply list_elem_of_fmap. by exists p.
    + intros j p Hj Hp. apply (Hfirst j (score self p, p)); [done|].
      apply list_lookup_fmap_Some. by exists p.
Qed.

(** C10. For a non-empty path list the recommended path is a path of the
    list that maximises value × probability × (1 − risk score × (1 − risk
    tolerance)), the value being the payoff of the outcome minus the
    accumulated cost; among the paths with the maximal score it is the first
    of the list. *)
Theorem recommended_path_maximises_score self paths :
  paths ≠ [] →
  let payoff := λ outcome,
    match outcome with
    | SUCCESS => lit 100000 1
    | PARTIAL_SUCCESS => lit 50000 1
    | FAILURE => lit (-10000) 1
    | CATASTROPHIC => lit (-50000) 1
    end in
  let value := λ p,
    (payoff (SimulationPath.outcome_type p) - SimulationPath.total_cost p)%Qc in
  let objective := λ p,
    (value p * SimulationPath.probability p
     * (1 - SimulationPath.risk_score p * (1 - Simulator.risk_tolerance self)))%Qc in
  ∃ i best,
    _select_recommended_path self paths = Some best ∧
    paths !! i = Some best ∧
    (∀ p, p ∈ paths → (objective p ≤ objective best)%Qc) ∧
    (∀ j p, j < i → paths !! j = Some p → (objective p < objective best)%Qc).
Proof.
  intros Hne payoff value objective.
  destruct (_select_recommended_path_first_maximum self paths Hne)
    as (i & best & Hsel & Hi & Hmax & Hfirst).
  exists i, best. split_and!; [done|done|exact Hmax|exact Hfirst].
Qed.

Lemma recommended_path_maximises_score_witness :
  ∃ i best,
    _select_recommended_path simulator candidates = Some best ∧
    candidates !! i = Some best ∧
    (∀ p, p ∈ candidates → (score simulator p ≤ score simulator best)%Qc) ∧
    (∀ j p, j < i → candidates !! j = Some p →
            (score simulator p < score simulator best)%Qc).
Proof.
  apply (recommended_path_maximises_score simulator candidates). done.
Defined.

(** The second of the three candidates is the one chosen. *)
Example recommended_candidate :
  _select_recommended_path simulator candidates = candidates !! 1.
Proof. vm_compute. reflexivity. Qed.

(** ** The empty action set *)

Section EmptyActionSet.

Variable call : Callable → Action → list Action → list Action → CallResult.

Lemma _run_monte_carlo_simulation_empty simulation_id rng :
  _run_monte_carlo_simulation call [] simulation_id rng
  = Ok (empty_path simulation_id, rng).
Proof. by destruct rng. Qed.

Lemma mc_runs_empty ids rng :
  mc_runs call [] ids rng = Ok (empty_path <$> ids, rng).
Proof.
  induction ids as [|i ids IH]; [done|].
  cbn [mc_runs]. rewrite _run_monte_carlo_simulation_empty. simpl.
  by rewrite IH.
Qed.

Lemma ratio_0 m : ratio 0 m = lit 0 1.
Proof.
  unfold ratio, Qcdiv.
  replace (Qc_of_Z (Z.of_nat 0)) with (Q2Qc 0) by by apply Qc_is_canon.
  apply Qcmult_0_l.
Qed.

Lemma score_empty_path self i : score self (empty_path i) = lit 0 1.
Proof.
  unfold score. cbn [empty_path SimulationPath.probability].
  by rewrite Qcmult_0_r, Qcmult_0_l.
Qed.

Lemma filter_success_empty ids : filter is_success (empty_path <$> ids) = [].
Proof.
  induction ids as [|i ids IH]; [done|].
  rewrite fmap_cons, filter_cons_False; [done|]. by intros [?|?].
Qed.

End EmptyActionSet.

(** C2 (as stated, refuted).  The Monte Carlo run of the empty action set
    with 100 samples lists 100 paths and recommends one of them. *)
Lemma empty_action_set_lists_paths :
  ∃ result,
    returned (simulate_scenario no_effects simulator "x" [] 100 true
                (constant_tape (lit 0 1))) = Some result ∧
    length (ScenarioResult.paths result) = 100 ∧
    ScenarioResult.paths result ≠ [] ∧
    ScenarioResult.recommended_path result ≠ None.
Proof.
  eexists. split; [vm_compute; reflexivity|]. split_and!; [done..].
Qed.

(** C2 (amended).  Simulating the empty action set in Monte Carlo mode with
    a positive number of samples is not an error: the result has success
    rate 0, lists one path per sample, each without any action taken, and
    recommends the first of them. *)
Theorem empty_action_set_monte_carlo call self scenario_name num_simulations rng :
  (0 < num_simulations)%Z →
  ∃ result self',
    simulate_scenario call self scenario_name [] num_simulations true rng
    = Ok (result, self', rng) ∧
    ScenarioResult.success_rate result = lit 0 1 ∧
    ScenarioResult.paths result = empty_path <$> seq 0 (Z.to_nat num_simulations) ∧
    Forall (λ p, SimulationPath.actions_taken p = []) (ScenarioResult.paths result) ∧
    ScenarioResult.recommended_path result = Some (empty_path 0).
Proof.
  intros Hpos. unfold simulate_scenario. rewrite mc_runs_empty. simpl.
  destruct (Z.to_nat num_simulations) as [|n] eqn:Hn; [lia|].
  set (paths := empty_path <$> seq 0 (S n)).
  eexists _, _. split; [done|].
  assert (paths ≠ []) as Hne by done.
  destruct (_select_recommended_path_first_maximum self paths Hne)
    as (i & best & Hsel & Hi & _ & Hfirst).
  assert (i = 0) as ->.
  { destruct i as [|i]; [done|]. exfalso.
    apply list_lookup_fmap_Some in Hi as (k & -> & _).
    specialize (Hfirst 0 (empty_path 0)). rewrite !score_empty_path in Hfirst.
    by apply (Qclt_not_eq (lit 0 1) (lit 0 1)); [apply Hfirst; [lia|]|]. }
  assert (best = empty_path 0) as -> by (by simplify_eq/=).
  pose proof (filter_success_empty (seq 0 (S n))) as Hnone. fold paths in Hnone.
  change (_analyze_simulation_results self scenario_name paths) with
    (_analyze_simulation_results self scenario_name (empty_path 0 :: (empty_path <$> seq 1 n))).
  cbn [_analyze_simulation_results ScenarioResult.success_rate ScenarioResult.paths
       ScenarioResult.recommended_path].
  split_and!.
  - change (empty_path 0 :: (empty_path <$> seq 1 n)) with paths.
    rewrite Hnone. apply ratio_0.
  - done.
  - change (empty_path 0 :: (empty_path <$> seq 1 n)) with paths.
    apply Forall_forall. intros p (k & -> & _)%list_elem_of_fmap. done.
  - exact Hsel.
Qed.

Lemma empty_action_set_monte_carlo_witness :
  ∃ result self',
    simulate_scenario no_effects simulator "x" [] 100 true (constant_tape (lit 0 1))
    = Ok (result, self', constant_tape (lit 0 1)) ∧
    ScenarioResult.success_rate result = lit 0 1 ∧
    ScenarioResult.paths result = empty_path <$> seq 0 (Z.to_nat 100) ∧
    Forall (λ p, SimulationPath.actions_taken p = []) (ScenarioResult.paths result) ∧
    ScenarioResult.recommended_path result = Some (empty_path 0).
Proof.
  apply (empty_action_set_monte_carlo no_effects simulator "x" 100
           (constant_tape (lit 0 1))).
  lia.
Defined.

(** ** The sampling loops *)

Lemma product_snoc l x : product (l ++ [x]) = (product l * x)%Qc.
Proof.
  unfold product. induction l as [|y l IH]; simpl.
  - by rewrite Qcmult_1_l, Qcmult_1_r.
  - by rewrite IH, Qcmult_assoc.
Qed.

Lemma sum_cost_snoc l a : sum_cost (l ++ [a]) = (sum_cost l + Action.cost a)%Qc.
Proof.
  unfold sum_cost. induction l as [|y l IH]; simpl.
  - by rewrite Qcplus_0_l, Qcplus_0_r.
  - by rewrite IH, Qcplus_assoc.
Qed.

Lemma sum_duration_snoc l a :
  sum_duration (l ++ [a]) = (sum_duration l + Action.duration a)%Z.
Proof.
  unfold sum_duration. induction l as [|y l IH]; simpl; [lia|].
  rewrite IH. lia.
Qed.

(** The probability loop multiplies from the left; the result is the product. *)
Lemma foldl_probability (x : float) l :
  foldl (λ probability action, (probability * Action.success_probability action)%Qc)
        x l
  = (x * product (Action.success_probability <$> l))%Qc.
Proof.
  revert x. induction l as [|a l IH]; intros x; simpl.
  - by rewrite Qcmult_1_r.
  - by rewrite IH, Qcmult_assoc.
Qed.

Lemma _calculate_path_probability_product actions :
  _calculate_path_probability actions =
  match actions with
  | [] => lit 0 1
  | _ :: _ => product (Action.success_probability <$> actions)
  end.
Proof.
  destruct actions as [|a l]; [done|].
  unfold _calculate_path_probability. by rewrite foldl_probability, Qcmult_1_l.
Qed.

Lemma product_const (rate : float) (l : list Action) :
  product ((λ _, rate) <$> l) = (rate ^ length l)%Qc.
Proof. induction l as [|a l IH]; simpl; [done|]. by rewrite <-IH. Qed.

Section SamplingLoops.

Variable call : Callable → Action → list Action → list Action → CallResult.

(** What a produced Monte Carlo path is made of. *)
Lemma _run_monte_carlo_simulation_inv actions simulation_id rng path rng' :
  _run_monte_carlo_simulation call actions simulation_id rng = Ok (path, rng') →
  ∃ order,
    _topological_sort actions = Ok order ∧
    let st := mc_loop call order rng in
    path = SimulationPath.mk
             ("mc_" +:+ pretty simulation_id)
             (Loop.executed_actions st)
             (_determine_outcome (Loop.executed_actions st) actions)
             (Loop.total_cost st)
             (Loop.total_duration st)
             (_calculate_path_probability (Loop.executed_actions st))
             (Loop.second_order_effects st)
             (_calculate_risk_score (Loop.second_order_effects st)
                                    (Loop.total_cost st)) ∧
    rng' = Loop.rng st.
Proof.
  unfold _run_monte_carlo_simulation. intros (order & Hsort & Hok)%bind_Ok.
  exists order. split; [done|]. by simplify_eq/=.
Qed.

(** A property of the loop state that every round keeps holds at the end. *)
Lemma mc_loop_invariant (P : Loop.t → Prop) order :
  (∀ st action, P st → P (mc_step call order st action)) →
  ∀ l st, P st → P (foldl (mc_step call order) st l).
Proof.
  intros Hstep. induction l as [|a l IH]; intros st Hst; simpl; [done|].
  apply IH. by apply Hstep.
Qed.

Lemma det_loop_invariant (P : Loop.t → Prop) success_rate :
  (∀ st action, P st → P (det_step success_rate st action)) →
  ∀ l st, P st → P (foldl (det_step success_rate) st l).
Proof.
  intros Hstep. induction l as [|a l IH]; intros st Hst; simpl; [done|].
  apply IH. by apply Hstep.
Qed.

(** A round either leaves the executed actions alone or appends the action
    of the round. *)
Lemma mc_step_executed order st action :
  Loop.executed_actions (mc_step call order st action) = Loop.executed_actions st ∨
  (deps_in (Loop.executed_actions st) action ∧
   Loop.executed_actions (mc_step call order st action)
   = Loop.executed_actions st ++ [action]).
Proof.
  unfold mc_step. destruct (decide (deps_in _ _)); [|by left].
  destruct (random (Loop.rng st)) as [draw g].
  destruct (decide (draw < _)%Qc); [right|left]; done.
Qed.

Lemma mc_loop_after_dependencies order rng :
  after_dependencies (Loop.executed_actions (mc_loop call order rng)).
Proof.
  unfold mc_loop.
  apply (mc_loop_invariant (λ st, after_dependencies (Loop.executed_actions st)));
    [|apply after_dependencies_nil].
  intros st action Hst.
  destruct (mc_step_executed order st action) as [->|[Hdeps ->]]; [done|].
  apply after_dependencies_app; [done|]. by apply Forall_singleton.
Qed.

Lemma mc_loop_sums order rng :
  let st := mc_loop call order rng in
  Loop.total_cost st = sum_cost (Loop.executed_actions st) ∧
  Loop.total_duration st = sum_duration (Loop.executed_actions st).
Proof.
  unfold mc_loop.
  apply (mc_loop_invariant
           (λ st, Loop.total_cost st = sum_cost (Loop.executed_actions st) ∧
                  Loop.total_duration st = sum_duration (Loop.executed_actions st)));
    [|done].
  intros st action [Hc Hd]. unfold mc_step.
  destruct (decide (deps_in _ _)); [|done].
  destruct (random (Loop.rng st)) as [draw g].
  destruct (decide (draw < _)%Qc); [|done]. simpl.
  by rewrite sum_cost_snoc, sum_duration_snoc, Hc, Hd.
Qed.

Lemma det_loop_sums success_rate l rng :
  let st := foldl (det_step success_rate) (Loop.mk [] (lit 0 1) 0%Z [] rng) l in
  Loop.total_cost st = sum_cost (Loop.executed_actions st) ∧
  Loop.total_duration st = sum_duration (Loop.executed_actions st).
Proof.
  apply (det_loop_invariant
           (λ st, Loop.total_cost st = sum_cost (Loop.executed_actions st) ∧
                  Loop.total_duration st = sum_duration (Loop.executed_actions st)));
    [|done].
  intros st action [Hc Hd]. unfold det_step.
  destruct (random (Loop.rng st)) as [draw g].
  destruct (decide (draw < _)%Qc); [|done]. simpl.
  by rewrite sum_cost_snoc, sum_duration_snoc, Hc, Hd.
Qed.

(** Both loops take their actions from the list they run over, in order. *)
Lemma mc_loop_sublist order l st :
  ∃ taken,
    Loop.executed_actions (foldl (mc_step call order) st l)
    = Loop.executed_actions st ++ taken ∧
    taken `sublist_of` l.
Proof.
  revert st. induction l as [|a l IH]; intros st; simpl.
  { exists []. by rewrite app_nil_r. }
  destruct (IH (mc_step call order st a)) as (taken & -> & Hsub).
  destruct (mc_step_executed order st a) as [->|[_ ->]].
  - exists taken. split; [done|]. by apply sublist_cons.
  - exists (a :: taken). rewrite <-(assoc_L (++)). split; [done|].
    by apply sublist_skip.
Qed.

Lemma det_loop_sublist success_rate l st :
  ∃ taken,
    Loop.executed_actions (foldl (det_step success_rate) st l)
    = Loop.executed_actions st ++ taken ∧
    taken `sublist_of` l.
Proof.
  revert st. induction l as [|a l IH]; intros st; simpl.
  { exists []. by rewrite app_nil_r. }
  destruct (IH (det_step success_rate st a)) as (taken & -> & Hsub).
  unfold det_step. destruct (random (Loop.rng st)) as [draw g].
  destruct (decide (draw < _)%Qc); simpl.
  - exists (a :: taken). rewrite <-(assoc_L (++)). split; [done|].
    by apply sublist_skip.
  - exists taken. split; [done|]. by apply sublist_cons.
Qed.

(** The effect of the high-cost rule is recorded for every executed action
    above the threshold, with the actions executed up to and including it. *)
Lemma mc_loop_budget_effect order rng :
  let st := mc_loop call order rng in
  ∀ k a,
    Loop.executed_actions st !! k = Some a →
    (lit 10000 1 < Action.cost a)%Qc →
    budget_effect a (take (S k) (Loop.executed_actions st)) order
    ∈ Loop.second_order_effects st.
Proof.
  unfold mc_loop.
  apply (mc_loop_invariant
           (λ st, ∀ k a,
              Loop.executed_actions st !! k = Some a →
              (lit 10000 1 < Action.cost a)%Qc →
              budget_effect a (take (S k) (Loop.executed_actions st)) order
              ∈ Loop.second_order_effects st)).
  2: { intros k a Hk. done. }
  intros st action Hst k a. unfold mc_step.
  destruct (decide (deps_in _ _)); [|by apply Hst].
  destruct (random (Loop.rng st)) as [draw g].
  destruct (decide (draw < _)%Qc); [|by apply Hst]. simpl.
  intros Hk Hcost. apply elem_of_app.
  apply lookup_snoc_Some in Hk as [[Hlt Hk]|[-> <-]].
  - left. rewrite take_app_le by lia. by apply Hst.
  - right. rewrite take_ge by (rewrite length_app; simpl; lia).
    unfold _simulate_second_order_effects. rewrite decide_True by done.
    apply elem_of_app. right. by left.
Qed.

End SamplingLoops.

(** ** Path probability *)

(** C3 (as stated, refuted).  In the deterministic run of a plan whose draws
    all miss at rate 0.8, the "realistic" path has no action taken and
    probability 1, not 0. *)
Lemma deterministic_empty_path_probability :
  ∃ result p,
    returned (simulate_scenario no_effects simulator "plan" idle 1 false
                (constant_tape (lit 9 10))) = Some result ∧
    ScenarioResult.paths result !! 1 = Some p ∧
    SimulationPath.path_id p = "realistic" ∧
    SimulationPath.actions_taken p = [] ∧
    SimulationPath.probability p = lit 1 1 ∧
    SimulationPath.probability p ≠ lit 0 1.
Proof.
  eexists _, _. split; [vm_compute; reflexivity|].
  split_and!; [reflexivity|reflexivity|reflexivity|reflexivity|done].
Qed.

(** C3 (amended).  The probability of a Monte Carlo path is the product of
    the success probabilities of its executed actions, and 0 when none was
    executed; the probability of a deterministic path is the product of the
    scenario's success rate, once per executed action, hence 1 when none
    was executed. *)
Theorem path_probability_by_mode call actions simulation_id rng p rng'
    path_name order success_rate rng2 q rng2' :
  _run_monte_carlo_simulation call actions simulation_id rng = Ok (p, rng') →
  _create_deterministic_path path_name order success_rate rng2 = (q, rng2') →
  SimulationPath.probability p =
    match SimulationPath.actions_taken p with
    | [] => lit 0 1
    | _ :: _ => product (Action.success_probability <$> SimulationPath.actions_taken p)
    end ∧
  SimulationPath.probability q =
    match SimulationPath.actions_taken q with
    | [] => lit 1 1
    | _ :: _ => product ((λ _, success_rate) <$> SimulationPath.actions_taken q)
    end.
Proof.
  intros Hp Hq.
  apply _run_monte_carlo_simulation_inv in Hp as (sorted_actions & _ & -> & _).
  split.
  - cbn [SimulationPath.probability SimulationPath.actions_taken].
    apply _calculate_path_probability_product.
  - unfold _create_deterministic_path in Hq. simplify_eq/=.
    rewrite product_const. by destruct (Loop.executed_actions _).
Qed.

Lemma path_probability_by_mode_witness :
  ∃ p rng' q rng2',
    _run_monte_carlo_simulation no_effects chain 0 (constant_tape (lit 1 10))
    = Ok (p, rng') ∧
    _create_deterministic_path "pessimistic" chain (lit 5 10)
                               (constant_tape (lit 1 10)) = (q, rng2') ∧
    SimulationPath.actions_taken p = chain ∧
    SimulationPath.actions_taken q = chain ∧
    SimulationPath.probability p =
      match SimulationPath.actions_taken p with
      | [] => lit 0 1
      | _ :: _ => product (Action.success_probability <$> SimulationPath.actions_taken p)
      end ∧
    SimulationPath.probability q =
      match SimulationPath.actions_taken q with
      | [] => lit 1 1
      | _ :: _ => product ((λ _, lit 5 10) <$> SimulationPath.actions_taken q)
      end.
Proof.
  eexists _, _, _, _.
  split; [vm_compute; reflexivity|].
  split; [vm_compute; reflexivity|].
  split; [reflexivity|]. split; [reflexivity|].
  eapply (path_probability_by_mode no_effects chain 0 (constant_tape (lit 1 10))
            _ _ "pessimistic" chain (lit 5 10) (constant_tape (lit 1 10))).
  - vm_compute. reflexivity.
  - vm_compute. reflexivity.
Defined.

(** ** Dependencies of executed actions *)

(** C4 (as stated, refuted).  In deterministic mode no dependency is looked
    at: when the "realistic" draw of [base] misses and that of [top] hits,
    [top] is taken although [base], which it depends on, is not. *)
Lemma deterministic_path_ignores_dependencies :
  ∃ result p top,
    returned (simulate_scenario no_effects simulator "plan" chain 1 false
                (tape_missing_at 2 (lit 9 10) (lit 1 10))) = Some result ∧
    ScenarioResult.paths result !! 1 = Some p ∧
    SimulationPath.path_id p = "realistic" ∧
    SimulationPath.actions_taken p = [top] ∧
    Action.dependencies top = ["base"] ∧
    ¬ after_dependencies (SimulationPath.actions_taken p).
Proof.
  eexists _, _, _. split; [vm_compute; reflexivity|].
  split_and!; [reflexivity..|].
  intros Hord. destruct (Hord 0 _ "base" eq_refl) as (j & _ & Hj & _); [by left|].
  lia.
Qed.

(** C4 (amended).  In every path produced by the Monte Carlo sampler, an
    action appears in [actions_taken] only if every name in its dependency
    list is the name of an action that appears earlier in [actions_taken]. *)
Theorem monte_carlo_path_respects_dependencies
    call actions simulation_id rng p rng' :
  _run_monte_carlo_simulation call actions simulation_id rng = Ok (p, rng') →
  ∀ k a d,
    SimulationPath.actions_taken p !! k = Some a →
    d ∈ Action.dependencies a →
    ∃ j b,
      j < k ∧ SimulationPath.actions_taken p !! j = Some b ∧ Action.name b = d.
Proof.
  intros Hp.
  apply _run_monte_carlo_simulation_inv in Hp as (sorted_actions & _ & -> & _).
  apply mc_loop_after_dependencies.
Qed.

Lemma monte_carlo_path_respects_dependencies_witness :
  ∃ p rng',
    _run_monte_carlo_simulation no_effects project 0 (constant_tape (lit 1 10))
    = Ok (p, rng') ∧
    SimulationPath.actions_taken p = project ∧
    ∀ k a d,
      SimulationPath.actions_taken p !! k = Some a →
      d ∈ Action.dependencies a →
      ∃ j b,
        j < k ∧ SimulationPath.actions_taken p !! j = Some b ∧ Action.name b = d.
Proof.
  eexists _, _. split; [vm_compute; reflexivity|]. split; [reflexivity|].
  eapply (monte_carlo_path_respects_dependencies no_effects project 0
            (constant_tape (lit 1 10))).
  vm_compute. reflexivity.
Defined.

(** ** The high-cost rule *)

(** C9. In a Monte Carlo path, every executed action whose cost exceeds
    10000 has, in the effect list of the path, the budget-pressure effect it
    originated: probability 0.8, impact −0.3, and as affected actions the
    names of all actions of the ordering not executed so far. *)
Theorem high_cost_cascade call actions simulation_id rng p rng' :
  _run_monte_carlo_simulation call actions simulation_id rng = Ok (p, rng') →
  ∀ k a,
    SimulationPath.actions_taken p !! k = Some a →
    (lit 10000 1 < Action.cost a)%Qc →
    ∃ order effect,
      _topological_sort actions = Ok order ∧
      effect ∈ SimulationPath.second_order_effects p ∧
      SecondOrderEffect.source_action effect = Action.name a ∧
      SecondOrderEffect.probability effect = lit 8 10 ∧
      SecondOrderEffect.impact_magnitude effect = lit (-3) 10 ∧
      SecondOrderEffect.affected_actions effect =
        Action.name <$>
          filter (λ x, x ∉ take (S k) (SimulationPath.actions_taken p)) order.
Proof.
  intros Hp k a Hk Hcost.
  apply _run_monte_carlo_simulation_inv in Hp as (order & Hsort & -> & _).
  cbn [SimulationPath.actions_taken SimulationPath.second_order_effects] in *.
  exists order, (budget_effect a (take (S k) (Loop.executed_actions
                                                (mc_loop call order rng))) order).
  split_and!; [done| |done..].
  by apply mc_loop_budget_effect.
Qed.

Lemma high_cost_cascade_witness :
  ∃ p rng' a,
    _run_monte_carlo_simulation no_effects project 0 (constant_tape (lit 1 10))
    = Ok (p, rng') ∧
    SimulationPath.actions_taken p !! 1 = Some a ∧
    (lit 10000 1 < Action.cost a)%Qc ∧
    ∃ order effect,
      _topological_sort project = Ok order ∧
      effect ∈ SimulationPath.second_order_effects p ∧
      SecondOrderEffect.source_action effect = Action.name a ∧
      SecondOrderEffect.probability effect = lit 8 10 ∧
      SecondOrderEffect.impact_magnitude effect = lit (-3) 10 ∧
      SecondOrderEffect.affected_actions effect =
        Action.name <$>
          filter (λ x, x ∉ take 2 (SimulationPath.actions_taken p)) order.
Proof.
  eexists _, _, _. split; [vm_compute; reflexivity|].
  split; [reflexivity|]. split; [reflexivity|].
  eapply (high_cost_cascade no_effects project 0 (constant_tape (lit 1 10))).
  - vm_compute. reflexivity.
  - reflexivity.
  - reflexivity.
Defined.

(** ** The path subset law *)

(** What holds of every path in both modes: the actions taken are a
    subsequence of the list the sampler ran over, and the totals are the
    sums over the actions taken. *)
Lemma monte_carlo_path_subset_law call actions simulation_id rng p rng' :
  _run_monte_carlo_simulation call actions simulation_id rng = Ok (p, rng') →
  ∃ order,
    _topological_sort actions = Ok order ∧
    SimulationPath.actions_taken p `sublist_of` order ∧
    SimulationPath.total_cost p = sum_cost (SimulationPath.actions_taken p) ∧
    SimulationPath.total_duration p = sum_duration (SimulationPath.actions_taken p).
Proof.
  intros Hp.
  apply _run_monte_carlo_simulation_inv in Hp as (order & Hsort & -> & _).
  exists order. split; [done|]. simpl.
  destruct (mc_loop_sums call order rng) as [Hc Hd]. split_and!; [|done..].
  unfold mc_loop.
  by destruct (mc_loop_sublist call order order (Loop.mk [] (lit 0 1) 0%Z [] rng))
    as (taken & -> & Hsub).
Qed.

(** The same for a deterministic path, over the list it is created from. *)
Lemma deterministic_path_subset_law path_name order success_rate rng :
  let p := (_create_deterministic_path path_name order success_rate rng).1 in
  SimulationPath.actions_taken p `sublist_of` order ∧
  SimulationPath.total_cost p = sum_cost (SimulationPath.actions_taken p) ∧
  SimulationPath.total_duration p = sum_duration (SimulationPath.actions_taken p).
Proof.
  unfold _create_deterministic_path. simpl.
  destruct (det_loop_sums success_rate order rng) as [Hc Hd].
  split_and!; [|done..].
  by destruct (det_loop_sublist success_rate order (Loop.mk [] (lit 0 1) 0%Z [] rng))
    as (taken & -> & Hsub).
Qed.

(** C7 (the code departs from it).  In the deterministic run of two actions
    that wait for each other, the "optimistic" path takes the second action
    twice, as the resolver's ordering lists it twice, and charges its cost
    twice. *)
Theorem deterministic_path_repeats_action :
  ∃ result p,
    returned (simulate_scenario no_effects simulator "plan" deadlock 1 false
                (constant_tape (lit 1 10))) = Some result ∧
    ScenarioResult.paths result !! 0 = Some p ∧
    SimulationPath.path_id p = "optimistic" ∧
    SimulationPath.actions_taken p = [act_a; act_b; act_b] ∧
    ¬ NoDup (SimulationPath.actions_taken p) ∧
    SimulationPath.total_cost p = lit 500 1 ∧
    sum_cost deadlock = lit 300 1.
Proof.
  eexists _, _. split; [vm_compute; reflexivity|].
  split_and!; [reflexivity|reflexivity|reflexivity| | |].
  - intros Hnd. apply NoDup_cons in Hnd as [_ Hnd].
    apply NoDup_cons in Hnd as [Hb _]. apply Hb. by left.
  - apply Qc_is_canon. reflexivity.
  - apply Qc_is_canon. reflexivity.
Qed.

(** ** Bounds on probability and risk score *)

Lemma unit_interval_mult x y :
  unit_interval x → unit_interval y → unit_interval (x * y)%Qc.
Proof.
  intros [Hx0 Hx1] [Hy0 Hy1]. split.
  - by apply Qcmult_nonneg_nonneg.
  - eapply Qcle_trans; [by apply Qcmult_le_compat_r|]. by rewrite Qcmult_1_l.
Qed.

Lemma unit_interval_1 : unit_interval (lit 1 1).
Proof. by_evaluation. Qed.

Lemma product_unit_interval l :
  Forall unit_interval l → unit_interval (product l).
Proof.
  unfold product. induction 1 as [|x l Hx _ IH]; simpl.
  - apply unit_interval_1.
  - by apply unit_interval_mult.
Qed.

Lemma power_unit_interval x n : unit_interval x → unit_interval (x ^ n)%Qc.
Proof.
  intros Hx. induction n as [|n IH]; simpl.
  - apply unit_interval_1.
  - by apply unit_interval_mult.
Qed.

Lemma complement_unit_interval x : unit_interval x → unit_interval (1 - x)%Qc.
Proof.
  intros [H0 H1]. unfold unit_interval, Qcminus. split.
  - by apply Qcle_minus_iff in H1.
  - apply Qcle_minus_iff.
    replace (1 + - (1 + - x))%Qc with x; [done|].
    apply Qc_is_canon. simpl. rewrite !Qred_correct. ring.
Qed.

Lemma float_abs_nonneg x : (0 ≤ float_abs x)%Qc.
Proof.
  unfold float_abs. destruct (decide (x < 0)%Qc) as [Hneg|Hpos].
  - apply Qclt_le_weak, Qcopp_le_compat in Hneg. done.
  - by apply Qcnot_lt_le.
Qed.

Lemma float_min_unit_interval x : (0 ≤ x)%Qc → unit_interval (float_min x (lit 1 1)).
Proof.
  intros Hx. unfold float_min. destruct (decide (lit 1 1 < x)%Qc) as [Hlt|Hge].
  - apply unit_interval_1.
  - split; [done|]. by apply Qcnot_lt_le.
Qed.

Lemma sum_cost_nonneg l :
  Forall (λ a, 0 ≤ Action.cost a)%Qc l → (0 ≤ sum_cost l)%Qc.
Proof.
  unfold sum_cost. induction 1 as [|a l Ha _ IH]; simpl; [done|].
  by apply Qcplus_nonneg_nonneg.
Qed.

(** The risk score is 0 without effects and otherwise lies in the unit
    interval, provided the accumulated cost is not negative. *)
Lemma _calculate_risk_score_unit_interval effects total_cost :
  Forall (λ e, unit_interval (SecondOrderEffect.probability e)) effects →
  (0 ≤ total_cost)%Qc →
  unit_interval (_calculate_risk_score effects total_cost).
Proof.
  intros Heff Hcost. unfold _calculate_risk_score.
  destruct effects as [|e effects]; [by_evaluation|].
  apply float_min_unit_interval. apply Qcmult_nonneg_nonneg.
  - generalize (e :: effects) Heff. clear. intros l Hl.
    assert (0 ≤ lit 0 1)%Qc as Hacc by done.
    revert Hacc. generalize (lit 0 1).
    induction Hl as [|e l [He _] _ IH]; intros acc Hacc; simpl; [done|].
    apply IH. destruct (decide _); [|done].
    apply Qcplus_nonneg_nonneg; [done|].
    apply Qcmult_nonneg_nonneg; [apply float_abs_nonneg|done].
  - apply Qcplus_nonneg_nonneg; [by_evaluation|].
    apply Qcmult_nonneg_nonneg; [done|]. by_evaluation.
Qed.

Section Bounds.

Variable call : Callable → Action → list Action → list Action → CallResult.

Hypothesis call_probability :
  ∀ fn action executed_actions all_actions effect,
    call fn action executed_actions all_actions = Returns (Some effect) →
    unit_interval (SecondOrderEffect.probability effect).

Lemma custom_effects_probability fns action executed_actions all_actions :
  Forall (λ e, unit_interval (SecondOrderEffect.probability e))
         (custom_effects call fns action executed_actions all_actions).
Proof using call_probability.
  induction fns as [|fn fns IH]; simpl; [done|].
  destruct (call fn action executed_actions all_actions) as [[e|]|] eqn:Hcall;
    [|done..].
  apply Forall_cons. split; [|done]. by eapply call_probability.
Qed.

Lemma _simulate_second_order_effects_probability action executed_actions all_actions :
  Forall (λ e, unit_interval (SecondOrderEffect.probability e))
         (_simulate_second_order_effects call action executed_actions all_actions).
Proof using call_probability.
  unfold _simulate_second_order_effects.
  destruct (decide _); [|apply custom_effects_probability].
  apply Forall_app. split; [apply custom_effects_probability|].
  apply Forall_singleton. by_evaluation.
Qed.

Lemma mc_loop_effects_probability order rng :
  Forall (λ e, unit_interval (SecondOrderEffect.probability e))
         (Loop.second_order_effects (mc_loop call order rng)).
Proof using call_probability.
  unfold mc_loop.
  apply (mc_loop_invariant call
           (λ st, Forall (λ e, unit_interval (SecondOrderEffect.probability e))
                         (Loop.second_order_effects st))); [|done].
  intros st action Hst. unfold mc_step.
  destruct (decide (deps_in _ _)); [|done].
  destruct (random (Loop.rng st)) as [draw g].
  destruct (decide (draw < _)%Qc); [|done]. simpl.
  apply Forall_app. split; [done|].
  apply _simulate_second_order_effects_probability.
Qed.

Lemma monte_carlo_path_bounds actions simulation_id rng p rng' :
  Forall (λ a, unit_interval (Action.success_probability a)) actions →
  Forall (λ a, 0 ≤ Action.cost a)%Qc actions →
  _run_monte_carlo_simulation call actions simulation_id rng = Ok (p, rng') →
  unit_interval (SimulationPath.probability p) ∧
  unit_interval (SimulationPath.risk_score p) ∧
  (SimulationPath.second_order_effects p = [] →
   SimulationPath.risk_score p = lit 0 1).
Proof using call_probability.
  intros Hprob Hcost Hp.
  apply _run_monte_carlo_simulation_inv in Hp as (order & Hsort & -> & _).
  cbn [SimulationPath.probability SimulationPath.risk_score
       SimulationPath.second_order_effects].
  destruct (_topological_sort_Ok actions) as (order' & Hsort' & Hin & _).
  assert (order' = order) as -> by congruence.
  set (st := mc_loop call order rng).
  assert (Loop.executed_actions st ⊆ actions) as Hsub.
  { unfold st, mc_loop.
    destruct (mc_loop_sublist call order order (Loop.mk [] (lit 0 1) 0%Z [] rng))
      as (taken & -> & Hsub).
    intros a Ha. by apply Hin, (sublist_subseteq _ _ Hsub). }
  assert (∀ (P : Action → Prop), Forall P actions →
            Forall P (Loop.executed_actions st)) as Hall.
  { intros P HP. rewrite Forall_forall in HP. apply Forall_forall.
    intros a Ha. by apply HP, Hsub. }
  split_and!.
  - rewrite _calculate_path_probability_product.
    destruct (Loop.executed_actions st) as [|a l] eqn:Hex; [by_evaluation|].
    apply product_unit_interval, Forall_fmap. by apply Hall.
  - apply _calculate_risk_score_unit_interval.
    + apply mc_loop_effects_probability.
    + destruct (mc_loop_sums call order rng) as [Hc _]. fold st in Hc.
      rewrite Hc. apply sum_cost_nonneg. by apply Hall.
  - by intros ->.
Qed.

End Bounds.

(** ** The paths of a run *)

Section Produced.

Variable call : Callable → Action → list Action → list Action → CallResult.

Lemma mc_runs_elem actions ids rng paths rng' :
  mc_runs call actions ids rng = Ok (paths, rng') →
  ∀ p, p ∈ paths →
    ∃ simulation_id rng1 rng2,
      _run_monte_carlo_simulation call actions simulation_id rng1 = Ok (p, rng2).
Proof.
  revert rng paths. induction ids as [|i ids IH]; intros rng paths; simpl.
  - intros [= <- <-] p Hp. by apply elem_of_nil in Hp.
  - intros Hrun. apply bind_Ok in Hrun as ([p1 g1] & Hp1 & Hrest).
    apply bind_Ok in Hrest as ([ps g2] & Hps & [= <- <-]).
    intros p [->|Hp]%elem_of_cons; [by eauto|]. by eapply IH.
Qed.

Lemma _explore_all_paths_elem actions rng paths rng' :
  _explore_all_paths actions rng = Ok (paths, rng') →
  ∀ p, p ∈ paths →
    ∃ path_name order success_rate rng1,
      success_rate ∈ [lit 1 1; lit 8 10; lit 5 10] ∧
      p = (_create_deterministic_path path_name order success_rate rng1).1.
Proof.
  unfold _explore_all_paths. intros Hrun.
  apply bind_Ok in Hrun as (order & _ & Hrun).
  destruct (_create_deterministic_path "optimistic" order (lit 1 1) rng)
    as [p1 g1] eqn:H1.
  destruct (_create_deterministic_path "realistic" order (lit 8 10) g1)
    as [p2 g2] eqn:H2.
  destruct (_create_deterministic_path "pessimistic" order (lit 5 10) g2)
    as [p3 g3] eqn:H3.
  injection Hrun as <- <-. intros p Hp.
  repeat (apply elem_of_cons in Hp as [->|Hp]).
  - exists "optimistic", order, (lit 1 1), rng. rewrite H1. split; [|done].
    by left.
  - exists "realistic", order, (lit 8 10), g1. rewrite H2. split; [|done].
    right. by left.
  - exists "pessimistic", order, (lit 5 10), g2. rewrite H3. split; [|done].
    right. right. by left.
  - by apply elem_of_nil in Hp.
Qed.

Lemma simulate_scenario_inv self scenario_name actions num_simulations
    monte_carlo rng result self' rng' :
  simulate_scenario call self scenario_name actions num_simulations monte_carlo rng
  = Ok (result, self', rng') →
  ∃ paths,
    (if monte_carlo
     then mc_runs call actions (seq 0 (Z.to_nat num_simulations)) rng
     else _explore_all_paths actions rng) = Ok (paths, rng') ∧
    ScenarioResult.paths result = paths.
Proof.
  unfold simulate_scenario. intros Hrun.
  apply bind_Ok in Hrun as ([paths g] & Hpaths & [= <- _ <-]).
  exists paths. split; [done|]. apply _analyze_simulation_results_paths.
Qed.

End Produced.

Lemma deterministic_path_bounds path_name order success_rate rng :
  unit_interval success_rate →
  let p := (_create_deterministic_path path_name order success_rate rng).1 in
  unit_interval (SimulationPath.probability p) ∧
  unit_interval (SimulationPath.risk_score p) ∧
  SimulationPath.second_order_effects p = [] ∧
  SimulationPath.risk_score p = (1 - success_rate)%Qc.
Proof.
  intros Hrate. unfold _create_deterministic_path. simpl.
  split_and!; [by apply power_unit_interval|by apply complement_unit_interval|done..].
Qed.

(** C8 (as stated, refuted).  With success probabilities and effect
    probabilities in [0,1]: a Monte Carlo path whose accumulated cost is
    −480000 has a negative risk score; and a deterministic path has risk
    score 0.2 although it has no second-order effect. *)
Lemma risk_score_outside_unit_interval :
  Forall (λ a, unit_interval (Action.success_probability a)) rebate ∧
  (∃ result p,
     returned (simulate_scenario no_effects simulator "plan" rebate 1 true
                 (constant_tape (lit 1 10))) = Some result ∧
     ScenarioResult.paths result !! 0 = Some p ∧
     Forall (λ e, unit_interval (SecondOrderEffect.probability e))
            (SimulationPath.second_order_effects p) ∧
     SimulationPath.total_cost p = lit (-480000) 1 ∧
     SimulationPath.risk_score p = lit (-912) 1000 ∧
     (SimulationPath.risk_score p < 0)%Qc) ∧
  (∃ result q,
     returned (simulate_scenario no_effects simulator "plan" idle 1 false
                 (constant_tape (lit 9 10))) = Some result ∧
     ScenarioResult.paths result !! 1 = Some q ∧
     SimulationPath.second_order_effects q = [] ∧
     SimulationPath.risk_score q = lit 2 10 ∧
     SimulationPath.risk_score q ≠ lit 0 1).
Proof.
  split_and!.
  - by_evaluation.
  - eexists _, _. split; [vm_compute; reflexivity|].
    split_and!; [reflexivity|by_evaluation|by_evaluation|by_evaluation|by_evaluation].
  - eexists _, _. split; [vm_compute; reflexivity|].
    split_and!; [reflexivity|reflexivity|by_evaluation|by_evaluation].
Qed.

(** C8 (amended).  When every action has a success probability in [0,1] and
    a cost that is not negative, and every effect a function object returns
    has a probability in [0,1], every path of a run has its probability and
    its risk score in [0,1]; the risk score of a Monte Carlo path is 0 when
    the path has no second-order effect and capped at 1 otherwise, that of a
    deterministic path, which has no effect, is 1 minus the scenario's
    success rate. *)
Theorem path_probability_and_risk_bounds
    call self scenario_name actions num_simulations monte_carlo rng
    result self' rng' :
  Forall (λ a, unit_interval (Action.success_probability a)) actions →
  Forall (λ a, 0 ≤ Action.cost a)%Qc actions →
  (∀ fn action executed_actions all_actions effect,
     call fn action executed_actions all_actions = Returns (Some effect) →
     unit_interval (SecondOrderEffect.probability effect)) →
  simulate_scenario call self scenario_name actions num_simulations monte_carlo rng
  = Ok (result, self', rng') →
  ∀ p, p ∈ ScenarioResult.paths result →
    unit_interval (SimulationPath.probability p) ∧
    unit_interval (SimulationPath.risk_score p) ∧
    if monte_carlo
    then SimulationPath.second_order_effects p = [] →
         SimulationPath.risk_score p = lit 0 1
    else SimulationPath.second_order_effects p = [] ∧
         SimulationPath.risk_score p ∈ [lit 0 1; lit 2 10; lit 5 10].
Proof.
  intros Hprob Hcost Hcall Hrun p Hp.
  apply simulate_scenario_inv in Hrun as (paths & Hpaths & Heq).
  rewrite Heq in Hp. clear Heq. destruct monte_carlo.
  - destruct (mc_runs_elem _ _ _ _ _ _ Hpaths p Hp) as (i & g1 & g2 & Hrun).
    by eapply monte_carlo_path_bounds.
  - destruct (_explore_all_paths_elem _ _ _ _ Hpaths p Hp)
      as (path_name & order & success_rate & g1 & Hrate & ->).
    assert (unit_interval success_rate ∧
            (1 - success_rate)%Qc ∈ [lit 0 1; lit 2 10; lit 5 10]) as [Hunit Hrisk].
    { repeat (apply elem_of_cons in Hrate as [->|Hrate]);
        [| | |by apply elem_of_nil in Hrate]; by_evaluation. }
    destruct (deterministic_path_bounds path_name order success_rate g1 Hunit)
      as (? & ? & ? & Heq).
    split_and!; [done..|]. by rewrite Heq.
Qed.

Lemma path_probability_and_risk_bounds_witness :
  ∃ result self' rng',
    simulate_scenario no_effects simulator "Software Development Project" project
                      3 true (constant_tape (lit 1 10))
    = Ok (result, self', rng') ∧
    length (ScenarioResult.paths result) = 3 ∧
    ∀ p, p ∈ ScenarioResult.paths result →
      unit_interval (SimulationPath.probability p) ∧
      unit_interval (SimulationPath.risk_score p) ∧
      (SimulationPath.second_order_effects p = [] →
       SimulationPath.risk_score p = lit 0 1).
Proof.
  eexists _, _, _. split; [vm_compute; reflexivity|]. split; [reflexivity|].
  eapply (path_probability_and_risk_bounds no_effects simulator
            "Software Development Project" project 3 true
            (constant_tape (lit 1 10))).
  - by_evaluation.
  - by_evaluation.
  - intros fn action executed_actions all_actions effect [=].
  - vm_compute. reflexivity.
Defined.

(** ** Monte Carlo paths never repeat an action *)

(** The shape of every ordering the resolver returns: the actions ordered
    while some action was ready, then those left when none was, then
    entries repeated from the latter. *)
Lemma topo_loop_shape fuel sorted_actions remaining :
  length remaining ≤ fuel →
  ∃ sorted0 remaining0 extra,
    topo_loop fuel sorted_actions remaining = Ok (sorted0 ++ remaining0 ++ extra) ∧
    sorted0 ++ remaining0 ≡ₚ sorted_actions ++ remaining ∧
    Forall (λ a, ¬ deps_in sorted0 a) remaining0 ∧
    extra ⊆ remaining0.
Proof.
  revert sorted_actions remaining.
  induction fuel as [|fuel IH]; intros sorted_actions remaining Hlen.
  { destruct remaining; [|simpl in Hlen; lia].
    exists sorted_actions, [], []. by rewrite !app_nil_r. }
  destruct (decide (remaining = [])) as [->|Hne].
  { exists sorted_actions, [], []. by rewrite !app_nil_r. }
  set (P := deps_in sorted_actions).
  destruct (decide (filter P remaining = [])) as [Hstall|Hready].
  - destruct (topo_loop_stalled fuel sorted_actions remaining)
      as (r' & Hsub & Hlt & ->); [done..|].
    destruct (topo_loop_Ok fuel (sorted_actions ++ remaining) r')
      as (extra & -> & Hin & _); [lia|].
    exists sorted_actions, remaining, extra. rewrite <-(assoc_L (++)).
    split_and!; [done|done| |].
    + apply Forall_forall. intros b Hb HP. by eapply filter_nil_not_elem_of.
    + intros a Ha. by apply (sublist_subseteq _ _ Hsub), Hin.
  - rewrite topo_loop_clean by done. fold P.
    pose proof (filter_app_complement P remaining) as Hsplit.
    destruct (IH (sorted_actions ++ filter P remaining)
                 (filter (λ a, ¬ P a) remaining))
      as (sorted0 & remaining0 & extra & -> & Hperm & ? & ?).
    + apply Permutation_length in Hsplit. rewrite length_app in Hsplit.
      destruct (filter P remaining); [done|]. simpl in Hsplit. lia.
    + exists sorted0, remaining0, extra. split_and!; [done| |done..].
      by rewrite Hperm, <-(assoc_L (++)), Hsplit.
Qed.

(** The actions left when none was ready form a trap. *)
Lemma stalled_trap actions sorted0 remaining0 :
  sorted0 ++ remaining0 ≡ₚ actions →
  Forall (λ a, ¬ deps_in sorted0 a) remaining0 →
  trap actions (λ a, a ∈ remaining0).
Proof.
  intros Hperm Hstuck a _ Ha. rewrite Forall_forall in Hstuck.
  specialize (Hstuck a Ha). apply not_Forall_Exists in Hstuck; [|apply _].
  apply Exists_exists in Hstuck as (d & Hd & Hmissing).
  exists d. split; [done|]. intros b Hb Hname.
  rewrite <-Hperm in Hb. apply elem_of_app in Hb as [Hb|Hb]; [|done].
  destruct Hmissing. rewrite <-Hname. by apply list_elem_of_fmap_2.
Qed.

Lemma sublist_app_disjoint (l l1 l2 : list Action) :
  l `sublist_of` l1 ++ l2 → (∀ x, x ∈ l → x ∉ l2) → l `sublist_of` l1.
Proof.
  intros (k1 & k2 & -> & Hk1 & Hk2)%sublist_app_r Hdisj.
  destruct k2 as [|x k2]; [by rewrite app_nil_r|].
  destruct (Hdisj x).
  - apply elem_of_app. right. by left.
  - apply (sublist_subseteq _ _ Hk2). by left.
Qed.

Section NoRepetition.

Variable call : Callable → Action → list Action → list Action → CallResult.

(** No action of a trap is ever executed by the Monte Carlo loop. *)
Lemma mc_loop_avoids_trap actions T order l st :
  trap actions T →
  l ⊆ actions →
  Loop.executed_actions st ⊆ actions →
  (∀ b, b ∈ Loop.executed_actions st → ¬ T b) →
  ∀ b, b ∈ Loop.executed_actions (foldl (mc_step call order) st l) → ¬ T b.
Proof.
  intros Htrap. revert st. induction l as [|a l IH]; intros st Hl Hsub Hfree; simpl;
    [done|].
  assert (a ∈ actions) as Ha by (apply Hl; by left).
  assert (l ⊆ actions) as Hl' by (intros x Hx; apply Hl; by right).
  destruct (mc_step_executed call order st a) as [Heq|[Hdeps Heq]].
  - apply IH; [done|by rewrite Heq|by rewrite Heq].
  - apply IH; [done| |]; rewrite Heq.
    + intros x [Hx|Hx%list_elem_of_singleton]%elem_of_app;
        [by apply Hsub|by subst].
    + intros x [Hx|Hx%list_elem_of_singleton]%elem_of_app; [by apply Hfree|].
      subst x. intros HT.
      by apply (trapped_not_ready actions T (Loop.executed_actions st) a).
Qed.

(** With unique names, a Monte Carlo path takes no action twice, whatever
    the resolver's ordering repeats. *)
Lemma monte_carlo_path_NoDup actions simulation_id rng p rng' :
  unique_names actions →
  _run_monte_carlo_simulation call actions simulation_id rng = Ok (p, rng') →
  NoDup (SimulationPath.actions_taken p).
Proof.
  intros Huniq Hp.
  apply _run_monte_carlo_simulation_inv in Hp as (order & Hsort & -> & _).
  cbn [SimulationPath.actions_taken].
  destruct (topo_loop_shape (length actions) [] actions)
    as (sorted0 & remaining0 & extra & Hsort' & Hperm & Hstuck & Hextra); [done|].
  rewrite app_nil_l in Hperm.
  assert (order = sorted0 ++ remaining0 ++ extra) as ->.
  { unfold _topological_sort in Hsort. congruence. }
  pose proof (stalled_trap actions sorted0 remaining0 Hperm Hstuck) as Htrap.
  assert (sorted0 ++ remaining0 ++ extra ⊆ actions) as Hsub.
  { intros a Ha. rewrite <-Hperm.
    apply elem_of_app in Ha as [Ha|Ha]; apply elem_of_app; [by left|right].
    apply elem_of_app in Ha as [Ha|Ha]; [done|by apply Hextra]. }
  unfold mc_loop.
  set (st0 := Loop.mk [] (lit 0 1) 0%Z [] rng).
  destruct (mc_loop_sublist call (sorted0 ++ remaining0 ++ extra)
              (sorted0 ++ remaining0 ++ extra) st0) as (taken & Heq & Htaken).
  pose proof (mc_loop_avoids_trap actions _ (sorted0 ++ remaining0 ++ extra)
                (sorted0 ++ remaining0 ++ extra) st0 Htrap Hsub) as Hfree.
  rewrite Heq in Hfree |- *. simpl in Hfree |- *.
  apply (sublist_NoDup _ sorted0).
  - apply NoDup_fmap_1 in Huniq. rewrite <-Hperm in Huniq.
    by apply NoDup_app in Huniq as [? _].
  - apply (sublist_app_disjoint _ _ (remaining0 ++ extra)); [done|].
    intros x Hx [Hin|Hin]%elem_of_app.
    + by apply (Hfree ltac:(by intros ? ?%elem_of_nil)
                      ltac:(by intros ? ?%elem_of_nil) x Hx).
    + by apply (Hfree ltac:(by intros ? ?%elem_of_nil)
                      ltac:(by intros ? ?%elem_of_nil) x Hx), Hextra.
Qed.

End NoRepetition.

(** * Further properties *)

(** ** The resolver on plans it can order *)

Lemma filter_all {A} (P : A → Prop) `{!∀ x, Decision (P x)} (l : list A) :
  Forall P l → filter P l = l.
Proof.
  induction 1 as [|x l Hx _ IH]; [done|]. by rewrite filter_cons_True, IH.
Qed.

Lemma filter_none {A} (P : A → Prop) `{!∀ x, Decision (P x)} (l : list A) :
  Forall (λ x, ¬ P x) l → filter P l = [].
Proof.
  induction 1 as [|x l Hx _ IH]; [done|]. by rewrite filter_cons_False.
Qed.

(** A plan none of whose actions has a dependency is returned as it is. *)
Theorem resolve_order_without_dependencies actions :
  Forall (λ a, Action.dependencies a = []) actions →
  _topological_sort actions = Ok actions.
Proof.
  intros Hfree. unfold _topological_sort.
  destruct (decide (actions = [])) as [->|Hne]; [done|].
  assert (Forall (deps_in []) actions) as Hready.
  { eapply Forall_impl; [done|]. intros a Ha. unfold deps_in. by rewrite Ha. }
  destruct actions as [|x actions]; [done|].
  cbn [length]. rewrite topo_loop_clean, app_nil_l.
  - rewrite (filter_all _ _ Hready), filter_none.
    + by destruct (length actions).
    + eapply Forall_impl; [done|]. by intros a Ha Hn.
  - by rewrite (filter_all _ _ Hready).
Qed.

Lemma resolve_order_without_dependencies_witness :
  _topological_sort idle = Ok idle.
Proof.
  apply (resolve_order_without_dependencies idle). by repeat constructor.
Defined.

(** Ordering what the loop has ordered gives the same list again. *)
Lemma topo_loop_reorder actions :
  acyclic actions → deps_present actions →
  ∀ fuel sorted_actions remaining,
    length remaining ≤ fuel →
    sorted_actions ++ remaining ≡ₚ actions →
    ∃ layers,
      topo_loop fuel sorted_actions remaining = Ok (sorted_actions ++ layers) ∧
      layers ≡ₚ remaining ∧
      ∀ fuel', length layers ≤ fuel' →
        topo_loop fuel' sorted_actions layers = Ok (sorted_actions ++ layers).
Proof.
  intros Hacyc Hpres.
  induction fuel as [|fuel IH]; intros sorted_actions remaining Hlen Hperm.
  { destruct remaining; [|simpl in Hlen; lia].
    exists []. rewrite app_nil_r. split_and!; [done..|]. by intros []. }
  destruct (decide (remaining = [])) as [->|Hne].
  { exists []. rewrite app_nil_r. split_and!; [done..|]. by intros []. }
  pose proof (acyclic_ready _ _ _ Hacyc Hpres Hperm Hne) as Hready.
  rewrite topo_loop_clean by done.
  set (P := deps_in sorted_actions) in *.
  pose proof (filter_app_complement P remaining) as Hsplit.
  destruct (IH (sorted_actions ++ filter P remaining)
               (filter (λ a, ¬ P a) remaining)) as (layers & -> & Hlayers & Hagain).
  { apply Permutation_length in Hsplit. rewrite length_app in Hsplit.
    destruct (filter P remaining); [done|]. simpl in Hsplit. lia. }
  { by rewrite <-(assoc_L (++)), Hsplit. }
  exists (filter P remaining ++ layers). rewrite <-(assoc_L (++)).
  split_and!; [done|by rewrite Hlayers|].
  assert (filter P (filter P remaining ++ layers) = filter P remaining) as HP.
  { rewrite filter_app, (filter_all P (filter P remaining)), (filter_none P layers).
    - by rewrite app_nil_r.
    - apply Forall_forall. intros a Ha. rewrite Hlayers in Ha.
      by apply list_elem_of_filter in Ha as [? _].
    - apply Forall_forall. by intros a [? _]%list_elem_of_filter. }
  assert (filter (λ a, ¬ P a) (filter P remaining ++ layers) = layers) as HnP.
  { rewrite filter_app, (filter_none _ (filter P remaining)), (filter_all _ layers).
    - done.
    - apply Forall_forall. intros a Ha. rewrite Hlayers in Ha.
      by apply list_elem_of_filter in Ha as [? _].
    - apply Forall_forall. intros a [? _]%list_elem_of_filter. tauto. }
  intros [|fuel'] Hfuel.
  { destruct (filter P remaining); [done|]. simpl in Hfuel. lia. }
  rewrite topo_loop_clean; fold P; rewrite HP; [|done]. rewrite HnP.
  rewrite (assoc_L (++)). apply Hagain.
  rewrite length_app in Hfuel. destruct (filter P remaining); [done|].
  simpl in Hfuel. lia.
Qed.

(** For an acyclic plan without dangling names, the resolver leaves its own
    ordering unchanged. *)
Theorem resolve_order_idempotent actions order :
  acyclic actions → deps_present actions →
  _topological_sort actions = Ok order →
  _topological_sort order = Ok order.
Proof.
  intros Hacyc Hpres Hsort.
  destruct (topo_loop_reorder actions Hacyc Hpres (length actions) [] actions)
    as (layers & Hsort' & _ & Hagain); [done..|].
  unfold _topological_sort in *. rewrite Hsort' in Hsort.
  injection Hsort as <-. by apply Hagain.
Qed.

Lemma resolve_order_idempotent_witness :
  _topological_sort (reverse project) = Ok project ∧
  _topological_sort project = Ok project.
Proof.
  assert (_topological_sort (reverse project) = Ok project) as Hsort
    by (vm_compute; reflexivity).
  split; [done|].
  apply (resolve_order_idempotent (reverse project) project); [| |done].
  - apply (ranked_acyclic (reverse project) project_rank). by_evaluation.
  - apply deps_present_Forall. by_evaluation.
Defined.

(** ** Actions that can never run *)

(** In a Monte Carlo path of a plan with unique names, an action that lists
    a name no action bears, or whose name lies on a dependency cycle, is
    never taken. *)
Theorem blocked_action_never_taken call actions simulation_id rng p rng' a :
  unique_names actions →
  _run_monte_carlo_simulation call actions simulation_id rng = Ok (p, rng') →
  a ∈ actions →
  (∃ d, d ∈ Action.dependencies a ∧ d ∉ Action.name <$> actions) ∨
  tc (depends actions) (Action.name a) (Action.name a) →
  a ∉ SimulationPath.actions_taken p.
Proof.
  intros Huniq Hp Ha Hblocked.
  apply _run_monte_carlo_simulation_inv in Hp as (order & Hsort & -> & _).
  cbn [SimulationPath.actions_taken].
  destruct (_topological_sort_Ok actions) as (order' & Hsort' & Hin & _).
  assert (order' = order) as -> by congruence.
  assert (∃ T, trap actions T ∧ T a) as (T & Htrap & HT).
  { destruct Hblocked as [Hdangling|Hcycle].
    - eexists. split; [apply dangling_trap|]. exact Hdangling.
    - eexists. split; [by apply cycle_trap|]. exact Hcycle. }
  intros Htaken.
  apply (mc_loop_avoids_trap call actions T order order
           (Loop.mk [] (lit 0 1) 0%Z [] rng) Htrap Hin) in Htaken; [done|..].
  - by intros x Hx%elem_of_nil.
  - by intros x Hx%elem_of_nil.
Qed.

Lemma blocked_action_never_taken_witness :
  ∃ p rng',
    _run_monte_carlo_simulation no_effects deadlock 0 (constant_tape (lit 1 10))
    = Ok (p, rng') ∧
    act_a ∉ SimulationPath.actions_taken p.
Proof.
  eexists _, _. split; [vm_compute; reflexivity|].
  eapply (blocked_action_never_taken no_effects deadlock 0
            (constant_tape (lit 1 10)) _ _ act_a).
  - by_evaluation.
  - vm_compute. reflexivity.
  - by left.
  - right. eapply tc_l; [|apply tc_once].
    + exists act_a. split_and!; [by left|done|by left].
    + exists act_b. split_and!; [by right; left|done|by left].
Defined.

(** ** Plans whose draws all hit, or all miss *)

Lemma after_dependencies_deps_in order i a :
  after_dependencies order → order !! i = Some a → deps_in (take i order) a.
Proof.
  intros Hord Hi. apply Forall_forall. intros d Hd.
  destruct (Hord i a d Hi Hd) as (j & b & Hlt & Hj & <-).
  apply list_elem_of_fmap_2, elem_of_take. by exists j.
Qed.

Lemma sum_cost_perm l1 l2 : l1 ≡ₚ l2 → sum_cost l1 = sum_cost l2.
Proof.
  unfold sum_cost. induction 1 as [|x l1 l2 _ IH|x y l|l1 l2 l3 _ IH1 _ IH2]; simpl.
  - done.
  - by rewrite IH.
  - by rewrite !Qcplus_assoc, (Qcplus_comm (Action.cost y)).
  - by rewrite IH1.
Qed.

Lemma sum_duration_perm l1 l2 : l1 ≡ₚ l2 → sum_duration l1 = sum_duration l2.
Proof.
  unfold sum_duration.
  induction 1 as [|x l1 l2 _ IH|x y l|l1 l2 l3 _ IH1 _ IH2]; simpl; lia.
Qed.

Lemma Qc_of_Z_nonzero z : z ≠ 0%Z → Qc_of_Z z ≠ Q2Qc 0.
Proof. intros Hz Heq. apply (f_equal this) in Heq. by injection Heq. Qed.

Lemma ratio_diag n : 0 < n → ratio n n = Q2Qc 1.
Proof.
  intros Hn. unfold ratio, Qcdiv. apply Qcmult_inv_r, Qc_of_Z_nonzero. lia.
Qed.

Lemma _determine_outcome_all (executed_actions all_actions : list Action) :
  all_actions ≠ [] →
  length executed_actions = length all_actions →
  _determine_outcome executed_actions all_actions = SUCCESS.
Proof.
  intros Hne Hlen. unfold _determine_outcome.
  assert (0 < length all_actions) by (destruct all_actions; [done|simpl; lia]).
  rewrite Hlen, Nat.max_l, ratio_diag by lia. by rewrite decide_True by by_evaluation.
Qed.

Lemma _determine_outcome_none (all_actions : list Action) :
  _determine_outcome [] all_actions = CATASTROPHIC.
Proof.
  unfold _determine_outcome. cbn [length]. rewrite ratio_0.
  by rewrite !decide_False by by_evaluation.
Qed.

Section HitAndMiss.

Variable call : Callable → Action → list Action → list Action → CallResult.

(** The loop reads the tape and never writes it. *)
Lemma mc_loop_tape order rng :
  Random.tape (Loop.rng (mc_loop call order rng)) = Random.tape rng.
Proof.
  unfold mc_loop.
  apply (mc_loop_invariant call
           (λ st, Random.tape (Loop.rng st) = Random.tape rng)); [|done].
  intros st action Hst. unfold mc_step.
  destruct (decide (deps_in _ _)); [|done]. simpl.
  by destruct (decide (_ < _)%Qc).
Qed.

Lemma mc_loop_all_taken order l st :
  (∀ a k, a ∈ l → (Random.tape (Loop.rng st) k < Action.success_probability a)%Qc) →
  (∀ i a, l !! i = Some a → deps_in (Loop.executed_actions st ++ take i l) a) →
  Loop.executed_actions (foldl (mc_step call order) st l)
  = Loop.executed_actions st ++ l.
Proof.
  revert st. induction l as [|a l IH]; intros st Hhit Hdeps; simpl.
  { by rewrite app_nil_r. }
  assert (deps_in (Loop.executed_actions st) a) as Ha.
  { specialize (Hdeps 0 a eq_refl). by rewrite app_nil_r in Hdeps. }
  assert (Loop.executed_actions (mc_step call order st a)
          = Loop.executed_actions st ++ [a] ∧
          Random.tape (Loop.rng (mc_step call order st a))
          = Random.tape (Loop.rng st)) as [Hex Htape].
  { unfold mc_step. rewrite decide_True by done. simpl.
    rewrite decide_True; [done|]. apply Hhit. by left. }
  rewrite IH, Hex, <-(assoc_L (++)); [done| |].
  - intros b k Hb. rewrite Htape. apply Hhit. by right.
  - intros i b Hi. rewrite Hex, <-(assoc_L (++)). by apply (Hdeps (S i)).
Qed.

Lemma mc_loop_none_taken order l g :
  (∀ a k, a ∈ l → ¬ (Random.tape g k < Action.success_probability a)%Qc) →
  ∃ g',
    foldl (mc_step call order) (Loop.mk [] (lit 0 1) 0%Z [] g) l
    = Loop.mk [] (lit 0 1) 0%Z [] g' ∧
    Random.tape g' = Random.tape g.
Proof.
  revert g. induction l as [|a l IH]; intros g Hmiss; simpl; [by exists g|].
  unfold mc_step at 2. destruct (decide (deps_in _ _)).
  - cbn [random Loop.rng]. rewrite decide_False by (apply Hmiss; by left).
    cbn [Loop.executed_actions Loop.total_cost Loop.total_duration
         Loop.second_order_effects].
    destruct (IH (Random.mk (Random.tape g) (S (Random.position g))))
      as (g' & -> & Htape).
    { intros b k Hb. apply Hmiss. by right. }
    by exists g'.
  - apply IH. intros b k Hb. apply Hmiss. by right.
Qed.

Lemma mc_path_of_sure_plan simulation_id actions rng p rng' :
  acyclic actions → deps_present actions →
  (∀ a k, a ∈ actions →
     (Random.tape rng k < Action.success_probability a)%Qc) →
  _run_monte_carlo_simulation call actions simulation_id rng = Ok (p, rng') →
  _topological_sort actions = Ok (SimulationPath.actions_taken p) ∧
  SimulationPath.actions_taken p ≡ₚ actions ∧
  (actions ≠ [] → SimulationPath.outcome_type p = SUCCESS) ∧
  SimulationPath.total_cost p = sum_cost actions ∧
  SimulationPath.total_duration p = sum_duration actions.
Proof.
  intros Hacyc Hpres Hhit Hp.
  apply _run_monte_carlo_simulation_inv in Hp as (order & Hsort & -> & _).
  cbn [SimulationPath.actions_taken SimulationPath.outcome_type
       SimulationPath.total_cost SimulationPath.total_duration].
  destruct (_topological_sort_acyclic actions Hacyc Hpres)
    as (order' & Hsort' & Hperm & Hord).
  assert (order' = order) as -> by congruence.
  destruct (mc_loop_sums call order rng) as [Hcost Hdur].
  assert (Loop.executed_actions (mc_loop call order rng) = order) as Hex.
  { unfold mc_loop. rewrite mc_loop_all_taken; [done| |].
    - intros a k Ha. apply Hhit. by rewrite <-Hperm.
    - intros i a Hi. by apply after_dependencies_deps_in. }
  rewrite Hcost, Hdur, Hex. split_and!; [done|done| |by apply sum_cost_perm|
                                          by apply sum_duration_perm].
  intros Hne. apply _determine_outcome_all; [done|].
  by apply Permutation_length.
Qed.

(** When the plan is acyclic without dangling names and every draw of the
    tape lies below every success probability, a Monte Carlo path takes the
    whole ordering: it is a success and it costs and lasts what the plan
    does. *)
Theorem sure_plan_takes_every_action simulation_id actions rng p rng' :
  acyclic actions → deps_present actions →
  (∀ a k, a ∈ actions →
     (Random.tape rng k < Action.success_probability a)%Qc) →
  _run_monte_carlo_simulation call actions simulation_id rng = Ok (p, rng') →
  _topological_sort actions = Ok (SimulationPath.actions_taken p) ∧
  SimulationPath.actions_taken p ≡ₚ actions ∧
  (actions ≠ [] → SimulationPath.outcome_type p = SUCCESS) ∧
  SimulationPath.total_cost p = sum_cost actions ∧
  SimulationPath.total_duration p = sum_duration actions.
Proof. apply mc_path_of_sure_plan. Qed.

(** When no draw of the tape lies below any success probability, a Monte
    Carlo path takes no action: it is catastrophic, with probability, cost,
    duration and risk score 0 and no effect. *)
Theorem hopeless_plan_takes_no_action simulation_id actions rng p rng' :
  (∀ a k, a ∈ actions →
     ¬ (Random.tape rng k < Action.success_probability a)%Qc) →
  _run_monte_carlo_simulation call actions simulation_id rng = Ok (p, rng') →
  p = SimulationPath.mk ("mc_" +:+ pretty simulation_id) [] CATASTROPHIC
                        (lit 0 1) 0%Z (lit 0 1) [] (lit 0 1).
Proof.
  intros Hmiss Hp.
  apply _run_monte_carlo_simulation_inv in Hp as (order & Hsort & -> & _).
  destruct (_topological_sort_Ok actions) as (order' & Hsort' & Hin & _).
  assert (order' = order) as -> by congruence.
  unfold mc_loop.
  destruct (mc_loop_none_taken order order rng) as (g' & -> & _).
  { intros a k Ha. by apply Hmiss, Hin. }
  cbn [Loop.executed_actions Loop.total_cost Loop.total_duration
       Loop.second_order_effects].
  by rewrite _determine_outcome_none.
Qed.

End HitAndMiss.

Lemma sure_plan_takes_every_action_witness :
  ∃ p rng',
    _run_monte_carlo_simulation no_effects (reverse project) 7
                                (constant_tape (lit 1 10)) = Ok (p, rng') ∧
    _topological_sort (reverse project) = Ok (SimulationPath.actions_taken p) ∧
    SimulationPath.actions_taken p ≡ₚ reverse project ∧
    (reverse project ≠ [] → SimulationPath.outcome_type p = SUCCESS) ∧
    SimulationPath.total_cost p = sum_cost (reverse project) ∧
    SimulationPath.total_duration p = sum_duration (reverse project).
Proof.
  eexists _, _. split; [vm_compute; reflexivity|].
  eapply (sure_plan_takes_every_action no_effects 7 (reverse project)
            (constant_tape (lit 1 10))).
  - apply (ranked_acyclic (reverse project) project_rank). by_evaluation.
  - apply deps_present_Forall. by_evaluation.
  - intros a k Ha. revert a Ha. apply Forall_forall. by_evaluation.
  - vm_compute. reflexivity.
Defined.

Lemma hopeless_plan_takes_no_action_witness :
  ∃ p rng',
    _run_monte_carlo_simulation no_effects idle 3 (constant_tape (lit 9 10))
    = Ok (p, rng') ∧
    p = SimulationPath.mk "mc_3" [] CATASTROPHIC (lit 0 1) 0%Z (lit 0 1) [] (lit 0 1).
Proof.
  eexists _, _. split; [vm_compute; reflexivity|].
  eapply (hopeless_plan_takes_no_action no_effects 3 idle (constant_tape (lit 9 10))).
  - intros a k Ha. revert a Ha. apply Forall_forall. by_evaluation.
  - vm_compute. reflexivity.
Defined.

(** ** Outcome classification *)

Lemma lit_le_ratio (a : Z) (b : positive) n m :
  0 < m →
  (lit a b ≤ ratio n m)%Qc ↔ (a * Z.of_nat m ≤ Z.pos b * Z.of_nat n)%Z.
Proof.
  intros Hm. unfold Qcle, lit, ratio, Qcdiv, Qcmult, Qcinv. cbn [this Q2Qc Qc_of_Z].
  rewrite !Qred_correct.
  destruct m as [|m]; [lia|].
  unfold Qle, Qmult, Qinv, inject_Z. simpl Qnum. simpl Qden. lia.
Qed.

Lemma ratio_le_lit (a : Z) (b : positive) n m :
  0 < m →
  (ratio n m ≤ lit a b)%Qc ↔ (Z.pos b * Z.of_nat n ≤ a * Z.of_nat m)%Z.
Proof.
  intros Hm. unfold Qcle, lit, ratio, Qcdiv, Qcmult, Qcinv. cbn [this Q2Qc Qc_of_Z].
  rewrite !Qred_correct.
  destruct m as [|m]; [lia|].
  unfold Qle, Qmult, Qinv, inject_Z. simpl Qnum. simpl Qden. lia.
Qed.

Lemma _determine_outcome_thresholds (executed_actions all_actions : list Action) :
  let n := length executed_actions in
  let m := Nat.max (length all_actions) 1 in
  _determine_outcome executed_actions all_actions =
  if decide (9 * m ≤ 10 * n) then SUCCESS
  else if decide (6 * m ≤ 10 * n) then PARTIAL_SUCCESS
  else if decide (3 * m ≤ 10 * n) then FAILURE
  else CATASTROPHIC.
Proof.
  intros n m. unfold _determine_outcome. fold n m.
  assert (0 < m) as Hm by (unfold m; lia).
  repeat case_decide; try done;
    repeat match goal with
           | H : (lit _ _ ≤ ratio _ _)%Qc |- _ => apply lit_le_ratio in H; [|done]
           | H : ¬ (lit _ _ ≤ ratio _ _)%Qc |- _ => rewrite lit_le_ratio in H by done
           end; lia.
Qed.

(** The classification in whole numbers: with [n] executed actions out of
    [m] candidates ([m] counted as 1 for an empty candidate list), the
    outcome is a success from 9m ≤ 10n, a partial success from 6m ≤ 10n, a
    failure from 3m ≤ 10n, and catastrophic below. *)
Theorem outcome_thresholds (executed_actions all_actions : list Action) :
  let n := length executed_actions in
  let m := Nat.max (length all_actions) 1 in
  _determine_outcome executed_actions all_actions =
  if decide (9 * m ≤ 10 * n) then SUCCESS
  else if decide (6 * m ≤ 10 * n) then PARTIAL_SUCCESS
  else if decide (3 * m ≤ 10 * n) then FAILURE
  else CATASTROPHIC.
Proof. apply _determine_outcome_thresholds. Qed.

(** Executing more of the same candidates never gives a worse outcome. *)
Theorem outcome_monotone (executed1 executed2 all_actions : list Action) :
  length executed1 ≤ length executed2 →
  outcome_rank (_determine_outcome executed1 all_actions)
  ≤ outcome_rank (_determine_outcome executed2 all_actions).
Proof.
  intros Hle. rewrite !_determine_outcome_thresholds. cbv zeta.
  repeat case_decide; simpl; lia.
Qed.

Lemma outcome_monotone_witness :
  outcome_rank (_determine_outcome (take 2 project) project)
  ≤ outcome_rank (_determine_outcome (take 4 project) project).
Proof. apply (outcome_monotone (take 2 project) (take 4 project) project). simpl. lia. Defined.

(** ** The risk score *)

(** Whatever the effects and the accumulated cost, the risk score is at most
    1. *)
Theorem risk_score_at_most_one effects total_cost :
  (_calculate_risk_score effects total_cost ≤ 1)%Qc.
Proof.
  unfold _calculate_risk_score. destruct effects as [|e effects]; [by_evaluation|].
  unfold float_min. destruct (decide _) as [Hlt|Hge].
  - apply Qcle_refl.
  - by apply Qcnot_lt_le.
Qed.

(** Effects without negative impact carry no risk, whatever the cost. *)
Theorem harmless_effects_no_risk effects total_cost :
  Forall harmless effects →
  _calculate_risk_score effects total_cost = lit 0 1.
Proof.
  intros Hall. unfold _calculate_risk_score.
  destruct effects as [|e effects]; [done|].
  assert (∀ l acc, Forall harmless l →
            foldl (λ risk effect,
                     if decide (SecondOrderEffect.impact_magnitude effect < 0)%Qc
                     then (risk + float_abs (SecondOrderEffect.impact_magnitude effect)
                                  * SecondOrderEffect.probability effect)%Qc
                     else risk) acc l = acc) as Hfold.
  { intros l acc Hl. revert acc.
    induction Hl as [|x l Hx _ IH]; intros acc; simpl; [done|].
    by rewrite decide_False, IH. }
  rewrite Hfold by done. rewrite Qcmult_0_l.
  unfold float_min. by rewrite decide_False by by_evaluation.
Qed.

Lemma harmless_effects_no_risk_witness :
  _calculate_risk_score
    [SecondOrderEffect.mk "build" "morale improves" (lit 1 2) (lit 4 10) ["test"]]
    (lit 70000 1)
  = lit 0 1.
Proof.
  apply harmless_effects_no_risk. apply Forall_singleton. by_evaluation.
Defined.

(** ** Aggregates *)

(** The success rate of any path list lies in [0,1]. *)
Theorem success_rate_unit_interval self scenario_name paths :
  unit_interval
    (ScenarioResult.success_rate
       (_analyze_simulation_results self scenario_name paths)).
Proof.
  destruct paths as [|p paths]; [by_evaluation|].
  cbn [_analyze_simulation_results ScenarioResult.success_rate].
  pose proof (length_filter is_success (p :: paths)) as Hle.
  assert (0 < length (p :: paths)) as Hpos by (simpl; lia).
  split.
  - apply (lit_le_ratio 0 1); [done|]. lia.
  - apply (ratio_le_lit 1 1); [done|]. lia.
Qed.

Lemma score_risk_seeking self p :
  Simulator.risk_tolerance self = Q2Qc 1 →
  score self p = (_calculate_path_value p * SimulationPath.probability p)%Qc.
Proof. intros Hrt. unfold score. rewrite Hrt. ring. Qed.

(** For a simulator with risk tolerance 1 the risk-adjusted value is the
    expected value: risk scores do not count. *)
Theorem risk_seeking_value self scenario_name paths :
  Simulator.risk_tolerance self = Q2Qc 1 →
  let result := _analyze_simulation_results self scenario_name paths in
  ScenarioResult.risk_adjusted_value result = ScenarioResult.expected_value result.
Proof.
  intros Hrt. destruct paths as [|p paths]; [done|].
  cbn [_analyze_simulation_results ScenarioResult.risk_adjusted_value
       ScenarioResult.expected_value].
  generalize (lit 0 1). generalize (p :: paths). clear p paths.
  induction l as [|p l IH]; intros acc; simpl; [done|].
  by rewrite IH, score_risk_seeking.
Qed.

Lemma risk_seeking_value_witness :
  let result := _analyze_simulation_results risk_seeker "plan" candidates in
  ScenarioResult.risk_adjusted_value result = ScenarioResult.expected_value result.
Proof. apply (risk_seeking_value risk_seeker "plan" candidates). reflexivity. Defined.

(** ** Deterministic exploration *)

Lemma det_loop_rng success_rate l st :
  Loop.rng (foldl (det_step success_rate) st l)
  = Random.mk (Random.tape (Loop.rng st))
              (Random.position (Loop.rng st) + length l).
Proof.
  revert st. induction l as [|a l IH]; intros st; simpl.
  { rewrite Nat.add_0_r. by destruct (Loop.rng st). }
  rewrite IH. unfold det_step. simpl.
  destruct (decide (_ < _)%Qc); simpl; f_equal; lia.
Qed.

Lemma det_loop_all_taken success_rate l st :
  (∀ k, (Random.tape (Loop.rng st) k < success_rate)%Qc) →
  Loop.executed_actions (foldl (det_step success_rate) st l)
  = Loop.executed_actions st ++ l.
Proof.
  revert st. induction l as [|a l IH]; intros st Hhit; simpl.
  { by rewrite app_nil_r. }
  assert (det_step success_rate st a
          = Loop.mk (Loop.executed_actions st ++ [a])
                    (Loop.total_cost st + Action.cost a)%Qc
                    (Loop.total_duration st + Action.duration a)%Z []
                    (Random.mk (Random.tape (Loop.rng st))
                               (S (Random.position (Loop.rng st))))) as ->.
  { unfold det_step. simpl. by rewrite decide_True. }
  rewrite IH; [|done]. simpl. by rewrite <-(assoc_L (++)).
Qed.

(** Deterministic exploration, when it returns, returns the three paths
    "optimistic", "realistic" and "pessimistic", in this order, without
    effects and with risk scores 1 − 1, 1 − 0.8 and 1 − 0.5; it has then read
    three draws per entry of the resolver's ordering. *)
Theorem explore_all_paths_shape actions rng paths rng' :
  _explore_all_paths actions rng = Ok (paths, rng') →
  ∃ order p1 p2 p3,
    _topological_sort actions = Ok order ∧
    paths = [p1; p2; p3] ∧
    rng' = Random.mk (Random.tape rng) (Random.position rng + 3 * length order) ∧
    SimulationPath.path_id <$> paths
    = ["optimistic"; "realistic"; "pessimistic"] ∧
    SimulationPath.risk_score <$> paths
    = [(1 - lit 1 1)%Qc; (1 - lit 8 10)%Qc; (1 - lit 5 10)%Qc] ∧
    Forall (λ p, SimulationPath.second_order_effects p = []) paths.
Proof.
  intros Hrun. unfold _explore_all_paths in Hrun.
  apply bind_Ok in Hrun as (order & Hsort & Hrun).
  unfold _create_deterministic_path in Hrun. simpl in Hrun.
  injection Hrun as <- <-. eexists order, _, _, _.
  split_and!; [done|done| |done|done|by repeat constructor].
  rewrite !det_loop_rng. simpl. f_equal. lia.
Qed.

Lemma explore_all_paths_shape_witness :
  ∃ paths rng' order p1 p2 p3,
    _explore_all_paths chain (constant_tape (lit 6 10)) = Ok (paths, rng') ∧
    _topological_sort chain = Ok order ∧
    paths = [p1; p2; p3] ∧
    rng' = Random.mk (Random.tape (constant_tape (lit 6 10)))
                     (Random.position (constant_tape (lit 6 10)) + 3 * length order) ∧
    SimulationPath.path_id <$> paths
    = ["optimistic"; "realistic"; "pessimistic"] ∧
    SimulationPath.risk_score <$> paths
    = [(1 - lit 1 1)%Qc; (1 - lit 8 10)%Qc; (1 - lit 5 10)%Qc] ∧
    Forall (λ p, SimulationPath.second_order_effects p = []) paths.
Proof.
  destruct (explore_all_paths_shape chain (constant_tape (lit 6 10)) _ _ eq_refl)
    as (order & p1 & p2 & p3 & H).
  eexists _, _, order, p1, p2, p3. split; [vm_compute; reflexivity|]. exact H.
Defined.

(** As every draw is below 1, the optimistic path takes the whole ordering,
    with probability 1; for a non-empty plan it is a success. *)
Theorem optimistic_path_takes_every_action actions rng paths rng' :
  (∀ k, (Random.tape rng k < 1)%Qc) →
  _explore_all_paths actions rng = Ok (paths, rng') →
  ∃ p,
    paths !! 0 = Some p ∧
    _topological_sort actions = Ok (SimulationPath.actions_taken p) ∧
    SimulationPath.probability p = lit 1 1 ∧
    (actions ≠ [] → SimulationPath.outcome_type p = SUCCESS).
Proof.
  intros Hhit Hrun. unfold _explore_all_paths in Hrun.
  apply bind_Ok in Hrun as (order & Hsort & Hrun).
  destruct (_topological_sort_Ok actions) as (order' & Hsort' & _ & Hout).
  assert (order' = order) as -> by congruence.
  unfold _create_deterministic_path in Hrun. simpl in Hrun.
  injection Hrun as <- _. eexists. split; [done|].
  cbn [SimulationPath.actions_taken SimulationPath.probability
       SimulationPath.outcome_type].
  rewrite det_loop_all_taken by done. simpl.
  split_and!; [done|apply Qcpower_1|].
  intros Hne. apply _determine_outcome_all; [|done].
  intros ->. destruct actions as [|a actions]; [done|].
  specialize (Hout a). rewrite elem_of_nil in Hout. apply Hout. by left.
Qed.

Lemma optimistic_path_takes_every_action_witness :
  ∃ paths rng' p,
    _explore_all_paths deadlock (constant_tape (lit 99 100)) = Ok (paths, rng') ∧
    paths !! 0 = Some p ∧
    _topological_sort deadlock = Ok (SimulationPath.actions_taken p) ∧
    SimulationPath.probability p = lit 1 1 ∧
    (deadlock ≠ [] → SimulationPath.outcome_type p = SUCCESS).
Proof.
  eexists _, _.
  assert (∀ paths rng',
            _explore_all_paths deadlock (constant_tape (lit 99 100)) = Ok (paths, rng') →
            ∃ p, paths !! 0 = Some p ∧
                 _topological_sort deadlock = Ok (SimulationPath.actions_taken p) ∧
                 SimulationPath.probability p = lit 1 1 ∧
                 (deadlock ≠ [] → SimulationPath.outcome_type p = SUCCESS)) as H.
  { intros paths rng'.
    apply (optimistic_path_takes_every_action deadlock (constant_tape (lit 99 100))).
    intros k. by_evaluation. }
  destruct (H _ _ ltac:(vm_compute; reflexivity)) as (p & Hp).
  exists p. split; [vm_compute; reflexivity|]. exact Hp.
Defined.

(** ** Runs *)

Section Runs.

Variable call : Callable → Action → list Action → list Action → CallResult.

Lemma mc_runs_ids actions ids rng paths rng' :
  mc_runs call actions ids rng = Ok (paths, rng') →
  SimulationPath.path_id <$> paths = mc_id <$> ids.
Proof.
  revert rng paths. induction ids as [|i ids IH]; intros rng paths; simpl.
  - by intros [= <- <-].
  - intros Hrun. apply bind_Ok in Hrun as ([p1 g1] & Hp1 & Hrest).
    apply bind_Ok in Hrest as ([ps g2] & Hps & [= <- <-]).
    apply _run_monte_carlo_simulation_inv in Hp1 as (order & _ & -> & _).
    simpl. f_equal. by eapply IH.
Qed.

Lemma mc_id_inj : Inj (=) (=) mc_id.
Proof. intros i j [= H]. by apply (inj pretty). Qed.

(** A Monte Carlo run lists one path per sample, none for a negative count,
    named mc_0, mc_1, ... in order; no two paths share an identifier. *)
Theorem monte_carlo_path_ids self scenario_name actions num_simulations rng
    result self' rng' :
  simulate_scenario call self scenario_name actions num_simulations true rng
  = Ok (result, self', rng') →
  SimulationPath.path_id <$> ScenarioResult.paths result
  = mc_id <$> seq 0 (Z.to_nat num_simulations) ∧
  length (ScenarioResult.paths result) = Z.to_nat num_simulations ∧
  NoDup (SimulationPath.path_id <$> ScenarioResult.paths result).
Proof.
  intros Hrun. apply simulate_scenario_inv in Hrun as (paths & Hpaths & ->).
  apply mc_runs_ids in Hpaths. split_and!; [done| |].
  - apply (f_equal length) in Hpaths. by rewrite !length_fmap, length_seq in Hpaths.
  - rewrite Hpaths. pose proof mc_id_inj. apply (NoDup_fmap_2 mc_id), NoDup_seq.
Qed.

(** A Monte Carlo run asked for no sample, or for a negative number of
    them, returns the zero-valued result and recommends nothing. *)
Theorem no_sample_zero_result self scenario_name actions num_simulations rng :
  (num_simulations ≤ 0)%Z →
  returned (simulate_scenario call self scenario_name actions num_simulations
                              true rng)
  = Some (ScenarioResult.mk scenario_name [] (lit 0 1) (lit 0 1) (lit 0 1)
                            (lit 0 1) 0%Z None).
Proof.
  intros Hn. unfold simulate_scenario.
  by replace (Z.to_nat num_simulations) with 0 by lia.
Qed.

Lemma mc_loop_no_effects order l st :
  Forall plain l →
  Loop.second_order_effects st = [] →
  Loop.second_order_effects (foldl (mc_step call order) st l) = [].
Proof.
  intros Hl. revert st. induction Hl as [|a l [Hfns Hcost] _ IH]; intros st Hst;
    simpl; [done|].
  apply IH. unfold mc_step.
  destruct (decide (deps_in _ _)); [|done]. simpl.
  destruct (decide (_ < _)%Qc); [|done]. simpl.
  unfold _simulate_second_order_effects.
  by rewrite Hfns, decide_False, Hst.
Qed.

(** A plan of actions without side-effect functions and none costing more
    than 10000 gives Monte Carlo paths without effects and with risk score
    0. *)
Theorem plain_plan_no_effects actions simulation_id rng p rng' :
  Forall plain actions →
  _run_monte_carlo_simulation call actions simulation_id rng = Ok (p, rng') →
  SimulationPath.second_order_effects p = [] ∧
  SimulationPath.risk_score p = lit 0 1.
Proof.
  intros Hplain Hp.
  apply _run_monte_carlo_simulation_inv in Hp as (order & Hsort & -> & _).
  destruct (_topological_sort_Ok actions) as (order' & Hsort' & Hin & _).
  assert (order' = order) as -> by congruence.
  cbn [SimulationPath.second_order_effects SimulationPath.risk_score].
  unfold mc_loop. rewrite mc_loop_no_effects; [done| |done].
  rewrite Forall_forall in Hplain. apply Forall_forall.
  intros a Ha. by apply Hplain, Hin.
Qed.

End Runs.

Lemma monte_carlo_path_ids_witness :
  ∃ result self' rng',
    simulate_scenario no_effects simulator "plan" chain 12 true
                      (constant_tape (lit 1 2)) = Ok (result, self', rng') ∧
    SimulationPath.path_id <$> ScenarioResult.paths result = mc_id <$> seq 0 12 ∧
    length (ScenarioResult.paths result) = 12 ∧
    NoDup (SimulationPath.path_id <$> ScenarioResult.paths result).
Proof.
  eexists _, _, _. split; [vm_compute; reflexivity|].
  eapply (monte_carlo_path_ids no_effects simulator "plan" chain 12
            (constant_tape (lit 1 2))).
  vm_compute. reflexivity.
Defined.

Lemma no_sample_zero_result_witness :
  returned (simulate_scenario no_effects simulator "plan" project (-5) true
                              (constant_tape (lit 1 2)))
  = Some (ScenarioResult.mk "plan" [] (lit 0 1) (lit 0 1) (lit 0 1)
                            (lit 0 1) 0%Z None).
Proof.
  apply (no_sample_zero_result no_effects simulator "plan" project (-5)
           (constant_tape (lit 1 2))).
  lia.
Defined.

Lemma plain_plan_no_effects_witness :
  ∃ p rng',
    _run_monte_carlo_simulation no_effects chain 0 (constant_tape (lit 1 2))
    = Ok (p, rng') ∧
    SimulationPath.actions_taken p = chain ∧
    SimulationPath.second_order_effects p = [] ∧
    SimulationPath.risk_score p = lit 0 1.
Proof.
  eexists _, _. split; [vm_compute; reflexivity|]. split; [reflexivity|].
  eapply (plain_plan_no_effects no_effects chain 0 (constant_tape (lit 1 2))).
  - by_evaluation.
  - vm_compute. reflexivity.
Defined.

(** ** Runs of a plan that cannot fail *)

Lemma Qc_of_Z_succ n :
  Qc_of_Z (Z.of_nat (S n)) = (Qc_of_Z (Z.of_nat n) + 1)%Qc.
Proof.
  apply Qc_is_canon. cbn [this Qcplus Q2Qc Qc_of_Z]. rewrite !Qred_correct.
  rewrite Nat2Z.inj_succ. unfold Z.succ. by rewrite inject_Z_plus.
Qed.

Lemma foldl_total_cost_const (c : float) paths (acc : float) :
  Forall (λ p, SimulationPath.total_cost p = c) paths →
  foldl (λ acc p, acc + SimulationPath.total_cost p)%Qc acc paths
  = (acc + Qc_of_Z (Z.of_nat (length paths)) * c)%Qc.
Proof.
  intros Hall. revert acc.
  induction Hall as [|p paths Hp _ IH]; intros acc.
  - cbn [foldl length]. change (Z.of_nat 0) with 0%Z.
    replace (Qc_of_Z 0) with (Q2Qc 0) by by apply Qc_is_canon.
    by rewrite Qcmult_0_l, Qcplus_0_r.
  - cbn [foldl length]. rewrite IH, Hp, Qc_of_Z_succ.
    rewrite Qcmult_plus_distr_l, Qcmult_1_l, <-!Qcplus_assoc.
    f_equal. apply Qcplus_comm.
Qed.

Section SureRuns.

Variable call : Callable → Action → list Action → list Action → CallResult.

Lemma mc_runs_tape actions ids rng paths rng' :
  mc_runs call actions ids rng = Ok (paths, rng') →
  Forall (λ p, ∃ simulation_id rng1 rng2,
            Random.tape rng1 = Random.tape rng ∧
            _run_monte_carlo_simulation call actions simulation_id rng1
            = Ok (p, rng2)) paths.
Proof.
  revert rng paths. induction ids as [|i ids IH]; intros rng paths; simpl.
  - by intros [= <- <-].
  - intros Hrun. apply bind_Ok in Hrun as ([p1 g1] & Hp1 & Hrest).
    apply bind_Ok in Hrest as ([ps g2] & Hps & [= <- <-]).
    apply Forall_cons. split; [by exists i, rng, g1|].
    assert (Random.tape g1 = Random.tape rng) as Htape.
    { apply _run_monte_carlo_simulation_inv in Hp1 as (order & _ & _ & ->).
      apply mc_loop_tape. }
    eapply Forall_impl; [by eapply IH|]. simpl.
    intros p (j & r1 & r2 & Hr1 & Hp). exists j, r1, r2. split; [congruence|done].
Qed.

(** A Monte Carlo run of a non-empty acyclic plan without dangling names,
    on a tape whose draws all lie below every success probability, reports
    success rate 1 and the cost of the whole plan as average cost; every
    path is a success. *)
Theorem sure_plan_run self scenario_name actions num_simulations rng
    result self' rng' :
  acyclic actions → deps_present actions → actions ≠ [] →
  (∀ a k, a ∈ actions →
     (Random.tape rng k < Action.success_probability a)%Qc) →
  (0 < num_simulations)%Z →
  simulate_scenario call self scenario_name actions num_simulations true rng
  = Ok (result, self', rng') →
  ScenarioResult.success_rate result = lit 1 1 ∧
  ScenarioResult.average_cost result = sum_cost actions ∧
  Forall (λ p, SimulationPath.outcome_type p = SUCCESS)
         (ScenarioResult.paths result).
Proof.
  intros Hacyc Hpres Hne Hhit Hpos Hrun.
  unfold simulate_scenario in Hrun.
  apply bind_Ok in Hrun as ([paths g] & Hpaths & [= <- _ _]).
  pose proof (mc_runs_length _ _ _ _ _ _ Hpaths) as Hlen.
  rewrite length_seq in Hlen.
  assert (Forall (λ p, SimulationPath.outcome_type p = SUCCESS ∧
                       SimulationPath.total_cost p = sum_cost actions) paths)
    as Hall.
  { eapply Forall_impl; [by eapply mc_runs_tape|]. simpl.
    intros p (i & r1 & r2 & Htape & Hp).
    eapply mc_path_of_sure_plan in Hp as (_ & _ & Hout & Hcost & _); [by auto|done..|].
    intros a k Ha. rewrite Htape. by apply Hhit. }
  destruct paths as [|p paths]; [simpl in Hlen; lia|].
  cbn [_analyze_simulation_results ScenarioResult.success_rate
       ScenarioResult.average_cost ScenarioResult.paths].
  split_and!.
  - rewrite filter_all; [apply ratio_diag; simpl; lia|].
    eapply Forall_impl; [done|]. intros q [Hq _]. by left.
  - rewrite (foldl_total_cost_const (sum_cost actions)).
    + rewrite Qcplus_0_l, Qcmult_comm. apply Qcdiv_mult_l, Qc_of_Z_nonzero.
      simpl. lia.
    + eapply Forall_impl; [done|]. by intros q [_ ?].
  - eapply Forall_impl; [done|]. by intros q [? _].
Qed.

End SureRuns.

Lemma sure_plan_run_witness :
  ∃ result self' rng',
    simulate_scenario no_effects simulator "plan" (reverse project) 4 true
                      (constant_tape (lit 1 10)) = Ok (result, self', rng') ∧
    ScenarioResult.success_rate result = lit 1 1 ∧
    ScenarioResult.average_cost result = sum_cost (reverse project) ∧
    Forall (λ p, SimulationPath.outcome_type p = SUCCESS)
           (ScenarioResult.paths result).
Proof.
  eexists _, _, _. split; [vm_compute; reflexivity|].
  eapply (sure_plan_run no_effects simulator "plan" (reverse project) 4
            (constant_tape (lit 1 10))).
  - apply (ranked_acyclic (reverse project) project_rank). by_evaluation.
  - apply deps_present_Forall. by_evaluation.
  - done.
  - intros a k Ha. revert a Ha. apply Forall_forall. by_evaluation.
  - lia.
  - vm_compute. reflexivity.
Defined.

(** ** Witnesses of the path laws *)

Lemma monte_carlo_path_subset_law_witness :
  ∃ p rng' order,
    _run_monte_carlo_simulation no_effects chain 0
                                (tape_missing_at 1 (lit 95 100) (lit 1 10))
    = Ok (p, rng') ∧
    SimulationPath.actions_taken p = take 1 chain ∧
    _topological_sort chain = Ok order ∧
    SimulationPath.actions_taken p `sublist_of` order ∧
    SimulationPath.total_cost p = sum_cost (SimulationPath.actions_taken p) ∧
    SimulationPath.total_duration p = sum_duration (SimulationPath.actions_taken p).
Proof.
  destruct (monte_carlo_path_subset_law no_effects chain 0
              (tape_missing_at 1 (lit 95 100) (lit 1 10)) _ _ eq_refl)
    as (order & H).
  eexists _, _, order. split; [vm_compute; reflexivity|]. split; [reflexivity|].
  exact H.
Defined.

Lemma monte_carlo_path_NoDup_witness :
  ∃ p rng',
    _run_monte_carlo_simulation no_effects project 0 (constant_tape (lit 1 10))
    = Ok (p, rng') ∧
    SimulationPath.actions_taken p = project ∧
    NoDup (SimulationPath.actions_taken p).
Proof.
  eexists _, _. split; [vm_compute; reflexivity|]. split; [reflexivity|].
  eapply (monte_carlo_path_NoDup no_effects project 0 (constant_tape (lit 1 10))).
  - by_evaluation.
  - vm_compute. reflexivity.
Defined.

(** ** Where effects and deterministic choices come from *)

Section Provenance.

Variable call : Callable → Action → list Action → list Action → CallResult.

Lemma custom_effects_elem fns action executed_actions all_actions effect :
  effect ∈ custom_effects call fns action executed_actions all_actions →
  ∃ fn, fn ∈ fns ∧
        call fn action executed_actions all_actions = Returns (Some effect).
Proof.
  induction fns as [|fn fns IH]; simpl; [by intros ?%elem_of_nil|].
  destruct (call fn action executed_actions all_actions) as [[e|]|] eqn:Hcall.
  - intros [->|Hin]%elem_of_cons.
    + exists fn. split; [by left|done].
    + destruct (IH Hin) as (fn' & ? & ?). exists fn'. split; [by right|done].
  - intros Hin. destruct (IH Hin) as (fn' & ? & ?). exists fn'. split; [by right|done].
  - intros Hin. destruct (IH Hin) as (fn' & ? & ?). exists fn'. split; [by right|done].
Qed.

(** Every effect of a Monte Carlo path stems from an action the path took:
    it is the budget effect of an action costing more than 10000, or what
    one of the action's side-effect functions returned when the action was
    executed. *)
Theorem effects_stem_from_taken_actions actions simulation_id rng p rng' effect :
  _run_monte_carlo_simulation call actions simulation_id rng = Ok (p, rng') →
  effect ∈ SimulationPath.second_order_effects p →
  ∃ order k a,
    _topological_sort actions = Ok order ∧
    SimulationPath.actions_taken p !! k = Some a ∧
    let executed_actions := take (S k) (SimulationPath.actions_taken p) in
    ((lit 10000 1 < Action.cost a)%Qc ∧
     effect = budget_effect a executed_actions order) ∨
    (∃ fn, fn ∈ Action.side_effects a ∧
           call fn a executed_actions order = Returns (Some effect)).
Proof.
  intros Hp Heff.
  apply _run_monte_carlo_simulation_inv in Hp as (order & Hsort & -> & _).
  cbn [SimulationPath.actions_taken SimulationPath.second_order_effects] in *.
  exists order. revert effect Heff. unfold mc_loop.
  apply (mc_loop_invariant call
           (λ st, ∀ effect, effect ∈ Loop.second_order_effects st →
              ∃ k a,
                _topological_sort actions = Ok order ∧
                Loop.executed_actions st !! k = Some a ∧
                (((lit 10000 1 < Action.cost a)%Qc ∧
                  effect = budget_effect a (take (S k) (Loop.executed_actions st))
                                         order) ∨
                 (∃ fn, fn ∈ Action.side_effects a ∧
                        call fn a (take (S k) (Loop.executed_actions st)) order
                        = Returns (Some effect))))).
  2: { by intros e He%elem_of_nil. }
  intros st action Hst effect. unfold mc_step.
  destruct (decide (deps_in _ _)); [|by apply Hst]. simpl.
  destruct (decide (_ < _)%Qc); [|by apply Hst]. simpl.
  intros [Hold|Hnew]%elem_of_app.
  - destruct (Hst effect Hold) as (k & a & ? & Hk & Hwhy).
    exists k, a. pose proof (lookup_lt_Some _ _ _ Hk).
    rewrite take_app_le by lia. split_and!; [done| |done].
    by apply lookup_app_l_Some.
  - exists (length (Loop.executed_actions st)), action.
    rewrite take_ge by (rewrite length_app; simpl; lia).
    split_and!; [done|by rewrite list_lookup_middle|].
    unfold _simulate_second_order_effects in Hnew.
    destruct (decide (lit 10000 1 < Action.cost action)%Qc) as [Hcost|_].
    + apply elem_of_app in Hnew as [Hnew|Hnew%list_elem_of_singleton].
      * right. by apply custom_effects_elem.
      * left. done.
    + right. by apply custom_effects_elem.
Qed.

End Provenance.

Lemma effects_stem_from_taken_actions_witness :
  ∃ p rng' effect,
    _run_monte_carlo_simulation no_effects project 0 (constant_tape (lit 1 10))
    = Ok (p, rng') ∧
    SimulationPath.second_order_effects p !! 0 = Some effect ∧
    ∃ order k a,
      _topological_sort project = Ok order ∧
      SimulationPath.actions_taken p !! k = Some a ∧
      let executed_actions := take (S k) (SimulationPath.actions_taken p) in
      ((lit 10000 1 < Action.cost a)%Qc ∧
       effect = budget_effect a executed_actions order) ∨
      (∃ fn, fn ∈ Action.side_effects a ∧
             no_effects fn a executed_actions order = Returns (Some effect)).
Proof.
  eexists _, _, _. split; [vm_compute; reflexivity|]. split; [reflexivity|].
  eapply (effects_stem_from_taken_actions no_effects project 0
            (constant_tape (lit 1 10))).
  - vm_compute. reflexivity.
  - by left.
Defined.

Lemma det_loop_taken success_rate l st :
  Loop.executed_actions (foldl (det_step success_rate) st l)
  = Loop.executed_actions st ++
    (filter (λ x, (Random.tape (Loop.rng st) x.2 < success_rate)%Qc)
            (zip l (seq (Random.position (Loop.rng st)) (length l)))).*1.
Proof.
  revert st. induction l as [|a l IH]; intros st; simpl.
  { by rewrite app_nil_r. }
  rewrite IH. unfold det_step. simpl.
  rewrite filter_cons. simpl.
  destruct (decide (_ < _)%Qc); simpl; [|done].
  by rewrite <-(assoc_L (++)).
Qed.

(** A deterministic path takes exactly the entries of the list whose draw,
    one per entry in list order, lies below the scenario's success rate. *)
Theorem deterministic_path_taken_on_draws path_name order success_rate rng :
  SimulationPath.actions_taken
    (_create_deterministic_path path_name order success_rate rng).1
  = (filter (λ x, (Random.tape rng x.2 < success_rate)%Qc)
            (zip order (seq (Random.position rng) (length order)))).*1.
Proof. unfold _create_deterministic_path. simpl. by rewrite det_loop_taken. Qed.
